(** * ofind: oscillator search in semitotalistic cellular automata

    A shallow embedding of the search engine of [ofind.c] (D. Eppstein) and
    the properties of its tables, bit matrices, state queue and terminator.

    Conventions.  C [int]/[State] values are modelled as [Z]; a [Row]
    ([uint32_t]) is a [Z] in [0, 2^32).  Global C arrays are zero
    initialised and are modelled as finite maps read with default [0].
    Octal literals of the source are written in decimal, with the octal
    spelling in a comment next to them. *)

From stdpp Require Import gmap list.
From Stdlib Require Import ZArith Lia Bool Ascii.

Local Open Scope Z_scope.

(* ================================================================== *)
(** ** Machine words and arrays *)
(* ================================================================== *)

(** Conversion to [uint32_t] (a [Row]). *)
Definition u32 (z : Z) : Z := z mod 2 ^ 32.

(** Conversion to [int] / [int32_t] (two's complement reading). *)
Definition i32 (z : Z) : Z := (z + 2 ^ 31) mod 2 ^ 32 - 2 ^ 31.

(** A statically allocated C array: every cell not yet written holds 0. *)
Abbreviation array := (gmap Z Z).

Definition rd (a : array) (i : Z) : Z := default 0 (a !! i).
Definition wr (a : array) (i v : Z) : array := <[i := v]> a.

(** [for (x = lo; x < lo + n; x++)] as the list of the values [x] takes. *)
Definition upto (n : Z) : list Z := seqZ 0 n.

(* ================================================================== *)
(** ** Search parameters (the global configuration variables) *)
(* ================================================================== *)

Inductive sym_type := none | odd | even.

Definition sym_type_eqb (a b : sym_type) : bool :=
  match a, b with
  | none, none | odd, odd | even, even => true
  | _, _ => false
  end.

Record Params := {
  symmetry : sym_type;
  allow_row_sym : Z;
  rule : Z;
  period : Z;
  rotorWidth : Z;
  leftStatorWidth : Z;
  rightStatorWidth : Z;
  maxDeepen : Z;
  hashing : Z;
  sparkLevel : Z;
  zeroLotLine : Z
}.

(** [#define totalWidth (rotorWidth+leftStatorWidth+rightStatorWidth)] *)
Definition totalWidth (cfg : Params) : Z :=
  rotorWidth cfg + leftStatorWidth cfg + rightStatorWidth cfg.

Definition MAXPERIOD : Z := 20.

Definition set_hashing (cfg : Params) (h : Z) : Params :=
  {| symmetry := symmetry cfg; allow_row_sym := allow_row_sym cfg;
     rule := rule cfg; period := period cfg; rotorWidth := rotorWidth cfg;
     leftStatorWidth := leftStatorWidth cfg;
     rightStatorWidth := rightStatorWidth cfg; maxDeepen := maxDeepen cfg;
     hashing := h; sparkLevel := sparkLevel cfg;
     zeroLotLine := zeroLotLine cfg |}.

(* ================================================================== *)
(** ** Representation of states *)
(* ================================================================== *)

(** [STATE_SPACE_SIZE] is [INT32_MAX]. *)
Definition STATE_SPACE_SIZE : Z := 2 ^ 31 - 1.
Definition firstState : Z := 0.
Definition lastState : Z := STATE_SPACE_SIZE.
Definition queueFull : Z := STATE_SPACE_SIZE / 2.

(** [#define unused -1] *)
Definition unused : Z := -1.

(** The state queue: the arena [statespace] (an array of [Row], one slot of
    [period + 1] words per state: the parent reference, then one row per
    phase) and the two cursors. *)
Record Queue := {
  statespace : array;
  firstUnprocessedState : Z;
  firstFreeState : Z
}.

(** [statespace[s]] is a [uint32_t] read back as a [State] ([int32_t]). *)
Definition parentState (st : array) (s : Z) : Z := i32 (rd st s).

Definition setParentState (st : array) (s parent : Z) : array :=
  wr st s (u32 parent).

Definition rowOfState (st : array) (s phase : Z) : Z := rd st (s + 1 + phase).

Definition setRowOfState (st : array) (s phase row : Z) : array :=
  wr st (s + 1 + phase) row.

(** [nextState]: [None] stands for the call of [failure()], which prints the
    deepest line and exits the program. *)
Definition nextState (cfg : Params) (s : Z) : option Z :=
  let l := s + period cfg + 1 in
  if l >=? lastState then None else Some l.

Definition previousState (cfg : Params) (s : Z) : Z := s - (period cfg + 1).

(** [makeInitialStates]: [calloc] gives an all-zero arena. *)
Definition makeInitialStates (cfg : Params) : option Queue :=
  let st : array := ∅ in
  let fu := firstState in
  let st := setParentState st fu fu in
  let st := foldl (fun st phase => setRowOfState st fu phase 0) st
                  (upto (period cfg)) in
  ff ← nextState cfg fu;
  Some {| statespace := st; firstUnprocessedState := fu; firstFreeState := ff |}.

(* ================================================================== *)
(** ** Hash table for duplicate state elimination *)
(* ================================================================== *)

Definition HASHSIZE : Z := 2 ^ 21.
Definition HASHMASK : Z := HASHSIZE - 1.

(** The table of state offsets and the two salt tables filled from
    [random()] by [initHash].  The salts are outputs of [rand()], so the
    [long] sums below stay far from the range of [long]; the key is
    computed in [Z]. *)
Record Hash := {
  hashTable : array;
  hashValTab : array;
  hashValPTab : array
}.

Definition set_hashTable (h : Hash) (t : array) : Hash :=
  {| hashTable := t; hashValTab := hashValTab h; hashValPTab := hashValPTab h |}.

(** [clearHash] writes 0 into every cell: the table reads 0 everywhere. *)
Definition clearHash (h : Hash) : Hash := set_hashTable h ∅.

(** [#define HASHIDX(p,b,s) ((p)<<10)+(b<<8)+((rowOfState(s, p)>>(b*8))&0xff)] *)
Definition HASHIDX (st : array) (p b s : Z) : Z :=
  Z.shiftl p 10 + Z.shiftl b 8 + Z.land (Z.shiftr (rowOfState st s p) (b * 8)) 255.

(** [#define HASHBYTE(phase,byte,s)] *)
Definition HASHBYTE (h : Hash) (st : array) (phase byte s : Z) : Z :=
  rd (hashValTab h) (HASHIDX st phase byte s)
  + rd (hashValPTab h) (HASHIDX st phase byte (parentState st s)).

(** [isDuplicate]: the loop returns 0 at the first phase where the rows of
    the two states or of their parents differ. *)
Definition isDuplicate (cfg : Params) (st : array) (s t : Z) : Z :=
  let ps := parentState st s in
  let pt := parentState st t in
  if forallb (fun phase =>
                (rowOfState st s phase =? rowOfState st t phase)
                && (rowOfState st ps phase =? rowOfState st pt phase))
             (upto (period cfg))
  then 1 else 0.

(** The key computed by the first loop of [hash]. *)
Definition hashKey0 (cfg : Params) (h : Hash) (st : array) (s : Z) : Z :=
  foldl (fun key phase =>
           key + (HASHBYTE h st phase 0 s + HASHBYTE h st phase 1 s
                  + HASHBYTE h st phase 2 s + HASHBYTE h st phase 3 s))
        0 (upto (period cfg)).

(** The probing loop [while (nTries-- > 0)] of [hash]; the result is the
    returned [int] and the table. *)
Fixpoint hash_probe (nTries : nat) (cfg : Params) (st : array) (tab : array)
    (s hashKey : Z) : Z * array :=
  match nTries with
  | O => (0, tab)
  | S n =>
      let slot := Z.land hashKey HASHMASK in
      if rd tab slot =? 0 then (0, wr tab slot s)
      else if negb (isDuplicate cfg st s (rd tab slot) =? 0) then (1, tab)
      else hash_probe n cfg st tab s (hashKey + Z.shiftr hashKey 16)
  end.

(** [hash]: nonzero when [s] is not hashed because a duplicate exists. *)
Definition hash (cfg : Params) (h : Hash) (st : array) (s : Z) : Z * Hash :=
  let '(r, tab) := hash_probe 3 cfg st (hashTable h) s (hashKey0 cfg h st s) in
  (r, set_hashTable h tab).

(* ================================================================== *)
(** ** Extension tables: [makeDownShifts] *)
(* ================================================================== *)

(** The body of the loop of [makeDownShifts] for one [x]. *)
Definition downShiftEntry (x : Z) : Z :=
  let y := 0 in
  let y := if Z.land x 17 (* 021 *) =? 0 then y else Z.lor y 3 (* 03 *) in
  let y := if Z.land x 34 (* 042 *) =? 0 then y else Z.lor y 12 (* 014 *) in
  let y := if Z.land x 68 (* 0104 *) =? 0 then y else Z.lor y 48 (* 060 *) in
  let y := if Z.land x 136 (* 0210 *) =? 0 then y else Z.lor y 192 (* 0300 *) in
  y.

(** [makeDownShifts]: [for (x = 0; x < 0377; x++) downShifts[x] = y]. *)
Definition makeDownShifts : array :=
  foldl (fun tab x => wr tab x (downShiftEntry x)) ∅ (upto 255 (* 0377 *)).

(** [#define downShift(x) downShifts[x]] after [makeDownShifts()]. *)
Definition downShift (x : Z) : Z := rd makeDownShifts x.

(* ================================================================== *)
(** ** Possible extension rows [x,a,b -> c]: [makeExtTab], [setupExtensions] *)
(* ================================================================== *)

Definition EXTBITS : Z := 8 + 3 + 3 + 1.
Definition NEXTTAB : Z := Z.shiftl 1 EXTBITS.

(** [#define EXTIDX(x,a,b,c)] *)
Definition EXTIDX (x a b c : Z) : Z :=
  Z.lor (Z.lor (Z.lor (Z.shiftl x 7) (Z.shiftl (Z.land a 7) 4))
               (Z.shiftl (Z.land b 7) 1))
        (Z.shiftr (Z.land c 2) 1).

(** The rule bit looked up by [makeExtTab] for the cells [x], [a], [b]. *)
Definition extRuleBit (x a b : Z) : Z :=
  let ruleBit := 9 in
  let ruleBit := if Z.testbit a 0 then ruleBit + 1 else ruleBit in
  let ruleBit := if Z.testbit a 1 then ruleBit - 9 else ruleBit in
  let ruleBit := if Z.testbit a 2 then ruleBit + 1 else ruleBit in
  let ruleBit := if Z.testbit b 0 then ruleBit + 1 else ruleBit in
  let ruleBit := if Z.testbit b 1 then ruleBit + 1 else ruleBit in
  let ruleBit := if Z.testbit b 2 then ruleBit + 1 else ruleBit in
  let ruleBit := if Z.testbit x 1 then ruleBit + 1 else ruleBit in
  let ruleBit := if Z.testbit x 2 then ruleBit + 1 else ruleBit in
  let ruleBit := if Z.testbit x 3 then ruleBit + 1 else ruleBit in
  ruleBit.

(** [makeExtTab] *)
Definition makeExtTab (cfg : Params) : array :=
  foldl (fun tab base =>
    foldl (fun tab x =>
      if Z.testbit base (Z.land x 7) then
        foldl (fun tab a =>
          foldl (fun tab b =>
            let c := Z.shiftl (Z.land (Z.shiftr (rule cfg) (extRuleBit x a b)) 1) 1 in
            let idx := EXTIDX base a b c in
            wr tab idx (Z.lor (rd tab idx) (Z.shiftl 1 (Z.shiftr x 1))))
          tab (upto 8))
        tab (upto 8)
      else tab)
    tab (upto 16))
  ∅ (upto 256).

(** The lookup tables built once by [main] before the search. *)
Record Tables := {
  downShifts : array;
  extTab : array
}.

Definition initTables (cfg : Params) : Tables :=
  {| downShifts := makeDownShifts; extTab := makeExtTab cfg |}.

(** [#define maskedExtension(x,a,b,c,m)] *)
Definition maskedExtension (tb : Tables) (x a b c m : Z) : Z :=
  Z.land (rd (extTab tb) (EXTIDX x a b c))
         (rd (extTab tb) (Z.land m (EXTIDX x a b c))).

(** [Row] shifts: the result is truncated to 32 bits. *)
Definition shl32 (r n : Z) : Z := u32 (Z.shiftl r n).

(** The seed of [setupExtensions] before its loop over the columns. *)
Definition extensionSeed (cfg : Params) (tb : Tables) (a b c sparkMask : Z) : Z :=
  match symmetry cfg with
  | none =>
      let x := 1 in
      let x := maskedExtension tb x (shl32 a 2) (shl32 b 2) (shl32 c 2) sparkMask in
      maskedExtension tb x (shl32 a 1) (shl32 b 1) (shl32 c 1) sparkMask
  | odd =>
      let x := 255 (* 0377 *) in
      let x := maskedExtension tb x
                 (Z.lor (shl32 a 1) (Z.shiftr (Z.land a 2) 1))
                 (Z.lor (shl32 b 1) (Z.shiftr (Z.land b 2) 1))
                 (shl32 c 1) sparkMask in
      Z.land x 165 (* 0245: keep symmetric states only *)
  | even =>
      let x := 195 (* 0303: start w/symmetric states only *) in
      maskedExtension tb x
        (Z.lor (shl32 a 1) (Z.land a 1))
        (Z.lor (shl32 b 1) (Z.land b 1))
        (shl32 c 1) sparkMask
  end.

(** [setupExtensions]: fills [extensions[0 .. totalWidth)]. *)
Definition setupExtensions (cfg : Params) (tb : Tables) (extensions : array)
    (a b c sparkMask : Z) : array :=
  let x := extensionSeed cfg tb a b c sparkMask in
  let '(extensions, _, _, _, _) :=
    foldl (fun '(extensions, x, a, b, c) i =>
             let x := maskedExtension tb x a b c sparkMask in
             (wr extensions i x, x, Z.shiftr a 1, Z.shiftr b 1, Z.shiftr c 1))
          (extensions, x, a, b, c) (upto (totalWidth cfg)) in
  extensions.

(* ================================================================== *)
(** ** List of possible extension rows: [listRows] *)
(* ================================================================== *)

Definition NROWS : Z := 2 ^ 20.

(** The candidate rows of one expansion: [rows], and per phase the first
    index, the number of rows and the currently selected index. *)
Record Cand := {
  rows : array;
  firstRow : array;
  nRows : array;
  rowIndices : array
}.

Definition set_rows (cd : Cand) (r : array) : Cand :=
  {| rows := r; firstRow := firstRow cd; nRows := nRows cd;
     rowIndices := rowIndices cd |}.
Definition set_firstRow (cd : Cand) (r : array) : Cand :=
  {| rows := rows cd; firstRow := r; nRows := nRows cd;
     rowIndices := rowIndices cd |}.
Definition set_nRows (cd : Cand) (r : array) : Cand :=
  {| rows := rows cd; firstRow := firstRow cd; nRows := r;
     rowIndices := rowIndices cd |}.
Definition set_rowIndices (cd : Cand) (r : array) : Cand :=
  {| rows := rows cd; firstRow := firstRow cd; nRows := nRows cd;
     rowIndices := r |}.

(** [listRows(partialRow, phase, bit, extension)] with [bit = n - 1]; the
    recursion of the source is on [bit], down to [bit < 0].  [None] is the
    abort through [failure()] when the row buffer overflows. *)
Fixpoint listRows_rec (n : nat) (tb : Tables) (extensions : array) (cd : Cand)
    (partialRow phase extension : Z) : option Cand :=
  if extension =? 0 then Some cd
  else
    match n with
    | O =>
        (* bit < 0: found a full matching row *)
        let k := rd (nRows cd) phase in
        let cd := set_rows cd (wr (rows cd) (rd (firstRow cd) phase + k) partialRow) in
        let cd := set_nRows cd (wr (nRows cd) phase (k + 1)) in
        if rd (firstRow cd) phase + rd (nRows cd) phase >=? NROWS then None
        else Some cd
    | S m =>
        let bit := Z.of_nat m in
        let extension := Z.land extension (rd extensions bit) in
        cd ← listRows_rec m tb extensions cd partialRow phase
               (rd (downShifts tb) (Z.land extension 85 (* 0125 *)));
        listRows_rec m tb extensions cd (u32 (partialRow + Z.shiftl 1 bit)) phase
               (rd (downShifts tb) (Z.land extension 170 (* 0252 *)))
    end.

Definition listRows (tb : Tables) (extensions : array) (cd : Cand)
    (partialRow phase bit extension : Z) : option Cand :=
  listRows_rec (Z.to_nat (bit + 1)) tb extensions cd partialRow phase extension.

(** [#define STATMASK], an [int] expression. *)
Definition STATMASK (cfg : Params) : Z :=
  Z.lor (Z.shiftl (Z.shiftl 1 (rightStatorWidth cfg) - 1)
                  (rotorWidth cfg + leftStatorWidth cfg))
        (Z.shiftl 1 (leftStatorWidth cfg) - 1).

(** [row & STATMASK] in [Row] arithmetic. *)
Definition statorOf (cfg : Params) (row : Z) : Z :=
  Z.land row (u32 (STATMASK cfg)).

(* ================================================================== *)
(** ** Test and store compatibility of pairs of rows *)
(* ================================================================== *)

Definition NCOMPAT : Z := 2 ^ 21.

Record Compat := {
  compatBits : array;
  firstCompat : array;
  compatBlockLength : array
}.

Definition prevPhaseOf (cfg : Params) (phase : Z) : Z :=
  if phase - 1 <? 0 then period cfg - 1 else phase - 1.

(** The block header set up by [testCompatible] when
    [rowIndex == firstRow[phase]]; [None] is the abort through [failure()]. *)
Definition compatHeader (cfg : Params) (cd : Cand) (cp : Compat) (phase : Z)
    : option Compat :=
  let prevPhase := prevPhaseOf cfg phase in
  let fc :=
    if phase =? 0 then wr (firstCompat cp) 0 0
    else wr (firstCompat cp) phase
            (rd (firstCompat cp) prevPhase
             + rd (compatBlockLength cp) prevPhase * rd (nRows cd) prevPhase) in
  let bl := wr (compatBlockLength cp) phase
               (Z.shiftr (rd (nRows cd) prevPhase + 31) 5) in
  if rd fc phase + rd bl phase * rd (nRows cd) phase >? NCOMPAT then None
  else Some {| compatBits := compatBits cp; firstCompat := fc;
               compatBlockLength := bl |}.

(** The offset of the bit row [b] of [rowIndex] inside [compatBits]. *)
Definition compatRow (cd : Cand) (cp : Compat) (phase rowIndex : Z) : Z :=
  rd (firstCompat cp) phase
  + rd (compatBlockLength cp) phase * (rowIndex - rd (firstRow cd) phase).

(** [testCompatible]; the result is the bit matrix and the [extensions]
    scratch array, [None] the abort through [failure()]. *)
Definition testCompatible (cfg : Params) (tb : Tables) (st : array) (cd : Cand)
    (cp : Compat) (extensions : array) (phase prevRowIndex rowIndex s : Z)
    : option (Compat * array) :=
  let prevPhase := prevPhaseOf cfg phase in
  cp ← (if rowIndex =? rd (firstRow cd) phase
        then compatHeader cfg cd cp phase else Some cp);
  let b := compatRow cd cp phase rowIndex in
  let bits :=
    if prevRowIndex =? rd (firstRow cd) prevPhase
    then (* clear bits if first test for rowIndex *)
      foldl (fun bits i => wr bits (b + i) 0) (compatBits cp)
            (upto (rd (compatBlockLength cp) phase))
    else compatBits cp in
  let cp := {| compatBits := bits; firstCompat := firstCompat cp;
               compatBlockLength := compatBlockLength cp |} in
  (* do stators match? *)
  if negb (statorOf cfg (rd (rows cd) prevRowIndex)
           =? statorOf cfg (rd (rows cd) rowIndex))
  then Some (cp, extensions)
  else
    (* passed stator check, now check for ok evolution *)
    let extensions :=
      setupExtensions cfg tb extensions (rd (rows cd) prevRowIndex)
        (rowOfState st s prevPhase) (rd (rows cd) rowIndex) (u32 (-1)) in
    if negb (Z.land 3 (rd extensions (totalWidth cfg - 1)) =? 0) then
      let i := prevRowIndex - rd (firstRow cd) prevPhase in
      let w := b + Z.shiftr i 5 in
      Some ({| compatBits := wr bits w (Z.lor (rd bits w) (shl32 1 (Z.land i 31)));
               firstCompat := firstCompat cp;
               compatBlockLength := compatBlockLength cp |}, extensions)
    else Some (cp, extensions).

(** [compatible]: the stored bit, converted to [int]. *)
Definition compatible (cfg : Params) (cd : Cand) (cp : Compat)
    (phase prevRowIndex rowIndex : Z) : Z :=
  let prevPhase := prevPhaseOf cfg phase in
  let b := compatRow cd cp phase rowIndex in
  let i := prevRowIndex - rd (firstRow cd) prevPhase in
  i32 (Z.land (rd (compatBits cp) (b + Z.shiftr i 5)) (shl32 1 (Z.land i 31))).

(* ================================================================== *)
(** ** Which rows in phase 0 can be reached *)
(* ================================================================== *)

Record Reach := {
  reachBits : array;
  firstReach : array
}.

(** [#define REACHLENGTH ((nRows[0]+31)>>5)] *)
Definition REACHLENGTH (cd : Cand) : Z := Z.shiftr (rd (nRows cd) 0 + 31) 5.

(** [reachable], a [long]. *)
Definition reachable (cd : Cand) (rc : Reach) (phase firstRowIndex rowIndex : Z) : Z :=
  Z.land (rd (reachBits rc)
             (rd (firstReach rc) phase + rowIndex * REACHLENGTH cd
              + Z.shiftr firstRowIndex 5))
         (shl32 1 (Z.land firstRowIndex 31)).

(** First loop of [testReachable]: the last phase. *)
Definition reachLastPhase (cfg : Params) (cd : Cand) (cp : Compat) (bits : array)
    : array :=
  let last := period cfg - 1 in
  foldl (fun bits i =>
    let bits := foldl (fun bits j => wr bits (i * REACHLENGTH cd + j) 0)
                      bits (upto (REACHLENGTH cd)) in
    foldl (fun bits j =>
      if negb (compatible cfg cd cp 0 (rd (firstRow cd) last + i)
                          (rd (firstRow cd) 0 + j) =? 0)
      then
        let w := i * REACHLENGTH cd + Z.shiftr j 5 in
        wr bits w (Z.lor (rd bits w) (shl32 1 (Z.land j 31)))
      else bits)
      bits (upto (rd (nRows cd) 0)))
  bits (upto (rd (nRows cd) last)).

(** The body of the second loop of [testReachable] for one [phase], after
    [firstReach[phase]] has been set and checked. *)
Definition reachPhase (cfg : Params) (cd : Cand) (cp : Compat)
    (firstReach : array) (bits : array) (phase : Z) : array :=
  foldl (fun bits i =>
    let idx := rd firstReach phase + i * REACHLENGTH cd in
    let bits := foldl (fun bits j => wr bits (idx + j) 0)
                      bits (upto (REACHLENGTH cd)) in
    foldl (fun bits j =>
      if negb (compatible cfg cd cp (phase + 1) (rd (firstRow cd) phase + i)
                          (rd (firstRow cd) (phase + 1) + j) =? 0)
      then
        foldl (fun bits k =>
                 wr bits (idx + k)
                    (Z.lor (rd bits (idx + k))
                       (rd bits (rd firstReach (phase + 1)
                                 + j * REACHLENGTH cd + k))))
              bits (upto (REACHLENGTH cd))
      else bits)
      bits (upto (rd (nRows cd) (phase + 1))))
  bits (upto (rd (nRows cd) phase)).

(** The loop [for (phase = period-2; phase >= 0; phase--)], over the phases
    [n-1, n-2, ..., 0]; [None] is the abort through [failure()]. *)
Fixpoint reachPhases (n : nat) (cfg : Params) (cd : Cand) (cp : Compat)
    (rc : Reach) : option Reach :=
  match n with
  | O => Some rc
  | S m =>
      let phase := Z.of_nat m in
      let fr := wr (firstReach rc) phase
                   (rd (firstReach rc) (phase + 1)
                    + rd (nRows cd) (phase + 1) * REACHLENGTH cd) in
      if rd fr phase + rd (nRows cd) phase * REACHLENGTH cd >=? NCOMPAT then None
      else
        reachPhases m cfg cd cp
          {| reachBits := reachPhase cfg cd cp fr (reachBits rc) phase;
             firstReach := fr |}
  end.

(** [testReachable] *)
Definition testReachable (cfg : Params) (cd : Cand) (cp : Compat) (rc : Reach)
    : option Reach :=
  let fr := wr (firstReach rc) (period cfg - 1) 0 in
  let bits := reachLastPhase cfg cd cp (reachBits rc) in
  reachPhases (Z.to_nat (period cfg - 1)) cfg cd cp
    {| reachBits := bits; firstReach := fr |}.

(* ================================================================== *)
(** ** Detection of successful oscillators: the termination tables *)
(* ================================================================== *)

(** Each table of [initTermTabs] is written once per index by a loop whose
    body depends on the index (and on [rule]) only; the model gives the
    content of a cell as a function of its index. *)

Definition bit (x n : Z) : Z := Z.land (Z.shiftr x n) 1.

(** [(rule & (1<<n)) ? v : !v] *)
Definition ruleAgrees (cfg : Params) (n : Z) (v : bool) : bool :=
  if Z.testbit (rule cfg) n then v else negb v.

(** [count[i]], preshifted. *)
Definition count (i : Z) : Z := Z.shiftl (bit i 0 + bit i 1 + bit i 2) 17.

(** [bitCount[i]] *)
Definition bitCount (i : Z) : Z := bit i 0 + bit i 1 + bit i 2 + bit i 3 + bit i 4.

(** [#define tcomp3(i,j,k) tcompat3[(((i)&7)<<6)|(((j)&7)<<3)|((k)&7)]] *)
Definition tcomp3 (cfg : Params) (i j k : Z) : bool :=
  let i := Z.land i 7 in
  let j := Z.land j 7 in
  let k := Z.land k 7 in
  let count := 9 - 9 * bit j 1 in
  let count := count + (bit i 0 + bit i 1 + bit i 2) in
  let count := count + (bit k 0 + bit k 1 + bit k 2) in
  let count := count + (bit j 0 + bit j 2) in
  ruleAgrees cfg count (Z.testbit j 1).

(** [#define tcompatible(i,j,k) tcompat[((i)<<10)|((j)<<5)|(k)]], for
    [i], [j], [k] below 32. *)
Definition tcompatible (cfg : Params) (i j k : Z) : bool :=
  tcomp3 cfg i j k
  && tcomp3 cfg (Z.shiftr i 1) (Z.shiftr j 1) (Z.shiftr k 1)
  && tcomp3 cfg (Z.shiftr i 2) (Z.shiftr j 2) (Z.shiftr k 2)
  && tcomp3 cfg (Z.shiftr i 3) (Z.shiftr j 3) (Z.shiftr k 3)
  && tcomp3 cfg (Z.shiftr i 4) (Z.shiftr j 4) (Z.shiftr k 4).

(** [stabtab[i]], index format [iijjkkrrrppps]. *)
Definition stabtab (cfg : Params) (i : Z) : bool :=
  let j := 9 - 9 * bit i 5 in
  let j := j + (bit i 11 + bit i 9 + bit i 7) in
  let j := j + (bit i 6 + bit i 4) in
  let j := j + (bit i 3 + bit i 2 + bit i 1) in
  if ruleAgrees cfg j (Z.testbit i 0) then
    let j := 9 - 9 * bit i 9 in
    let j := j + (bit i 12 + bit i 11 + bit i 10 + bit i 8) in
    let j := j + (bit i 7 + bit i 6 + bit i 5 + bit i 4) in
    ruleAgrees cfg j (Z.testbit i 9)
  else false.

(** [revTerm[i]]: swap b1<->b2 and b3<->b4 in every block of the state. *)
Definition revTerm (i : Z) : Z :=
  foldl (fun r j =>
           let k := Z.lor (Z.shiftl (Z.land j 5) 1) (Z.shiftr (Z.land j 10) 1) in
           if Z.testbit i j then Z.lor r (Z.shiftl 1 k) else r)
        0 (upto 16).

(** [nti[(j<<6)|i]] for [i < 64], [j < 16]. *)
Definition nti (cfg : Params) (i j : Z) : Z :=
  let succ := Z.testbit i 0 in
  let count := Z.land (Z.shiftr i 1) 3 in
  let count := count + (bit i 3 + bit i 5) in
  let count := count + (bit j 0 + bit j 1) in
  let count := count + (9 - 9 * bit i 4) in
  let succ2 := Z.testbit j 0 in
  let count2 := 9 - 9 * bit j 0 + bit j 1 + bit j 2 + bit j 3 in
  let count2 := count2 + (bit i 3 + bit i 4 + bit i 5) in
  foldl (fun v inner =>
           if ruleAgrees cfg (count + inner) succ then
             foldl (fun v outer =>
                      if ruleAgrees cfg (count2 + inner + outer) succ2 then
                        Z.lor v (Z.shiftl 1 (Z.lor (Z.lor (Z.shiftl (Z.land j 5) 1)
                                                          (Z.shiftl outer 2)) inner))
                      else v)
                   v (upto 2)
           else v)
        0 (upto 2).

(** [nxTerm[i]] for [i < 2^22]. *)
Definition nxTerm (cfg : Params) (i : Z) : Z :=
  foldl (fun v j =>
           if Z.testbit i j
           then Z.lor v (nti cfg (Z.land (Z.shiftr i 16) 63) j)
           else v)
        0 (upto 16).

(** [#define NXTERM(t,r,pr,sr)] *)
Definition NXTERM (cfg : Params) (t r pr sr : Z) : Z :=
  nxTerm cfg (Z.lor (Z.lor (Z.lor t (Z.shiftl r 19)) pr) (Z.shiftl sr 16)).

(** [#define NEXTTERM(t,r,pr,sr,i)] *)
Definition NEXTTERM (cfg : Params) (t r pr sr i : Z) : Z :=
  NXTERM cfg t (Z.land (Z.shiftr r i) 7)
         (count (Z.land (Z.shiftr pr i) 7))
         (Z.land (Z.shiftr sr (i + 1)) 1).

(** What [initTermTabs] leaves in [initialTermState] and [addlStatorCols]. *)
Record TermInit := {
  initialTermState : Z;
  addlStatorCols : Z
}.

(** The loop [for (;;)] at the end of [initTermTabs]; it runs until the
    state repeats, [None] when it has not within [fuel] rounds. *)
Fixpoint initialTermLoop (fuel : nat) (cfg : Params) (ti : TermInit)
    : option TermInit :=
  match fuel with
  | O => None
  | S f =>
      let term := nxTerm cfg (initialTermState ti) in
      if term =? initialTermState ti then Some ti
      else initialTermLoop f cfg
             {| initialTermState := term;
                addlStatorCols := addlStatorCols ti + 1 |}
  end.

Definition initTermState (fuel : nat) (cfg : Params) : option TermInit :=
  let ti := {| initialTermState := 1; addlStatorCols := 0 |} in
  if zeroLotLine cfg =? 0 then initialTermLoop fuel cfg ti else Some ti.

(* ================================================================== *)
(** ** [aperiodic], [nontrivial] *)
(* ================================================================== *)

(** The [while] loop of [aperiodic] for the index [i]: [p[i]] is updated in
    place until the rows at [p[i]] and [i] agree or [p[i]] is reset to -1.
    [None] when the loop has not ended within [fuel] rounds. *)
Fixpoint aperiodic_while (fuel : nat) (st : array) (s i : Z) (p : array)
    : option array :=
  match fuel with
  | O => None
  | S f =>
      if rowOfState st s (rd p i) =? rowOfState st s i then Some p
      else if rd p i =? 0 then Some (wr p i (-1))
      else aperiodic_while f st s i (wr p i (rd p (rd p i - 1) + 1))
  end.

(** The [for] loop of [aperiodic] over [i = 1 .. period-1]. *)
Definition aperiodic_for (cfg : Params) (st : array) (s : Z) (p : array)
    : option array :=
  foldl (fun op i =>
           p ← op;
           aperiodic_while (Z.to_nat MAXPERIOD) st s i (wr p i (rd p (i - 1) + 1)))
        (Some p) (seqZ 1 (period cfg - 1)).

(** [aperiodic]: does this row have no subperiod? *)
Definition aperiodic (cfg : Params) (st : array) (s : Z) : option bool :=
  if period cfg =? 1 then Some (negb (rowOfState st s 0 =? 0))
  else
    p ← aperiodic_for cfg st s (wr ∅ 0 (-1));
    let i := period cfg - (rd p (period cfg - 1) + 1) in
    Some ((i =? period cfg) || negb (period cfg mod i =? 0)).

(** [nontrivial]: walk the parent links; [None] when the walk has not
    reached a self-parent within [fuel] steps. *)
Fixpoint nontrivial (fuel : nat) (cfg : Params) (st : array) (s : Z)
    : option bool :=
  match fuel with
  | O => None
  | S f =>
      if parentState st s =? s then Some false
      else
        match aperiodic cfg st s with
        | None => None
        | Some true => Some true
        | Some false => nontrivial f cfg st (parentState st s)
        end
  end.

(* ================================================================== *)
(** ** [terminal]: can a state be concluded? *)
(* ================================================================== *)

Record RowSym := {
  row_symmetry : sym_type;
  row_sym_phase_offset : Z
}.

(** [#define ODDEXT(r)], [#define EVEXT(r)] *)
Definition ODDEXT (r : Z) : Z := Z.lor (shl32 r 1) (Z.shiftr (Z.land r 2) 1).
Definition EVEXT (r : Z) : Z := Z.lor (shl32 r 1) (Z.land r 1).

(** The loops [for (phase ...) if (rowOfState(s, phase) != rowOfState(t,
    (phase + off) % period)) break;] followed by [phase == period]. *)
Definition sameRows (cfg : Params) (st : array) (s t off : Z) : bool :=
  forallb (fun phase =>
             rowOfState st s phase
             =? rowOfState st t ((phase + off) mod period cfg))
          (upto (period cfg)).

(** [nextTerm = -1; for (phase ...) nextTerm &= NEXTTERM(term, f r, f pr, g sr, i)] *)
Definition foldTerm (cfg : Params) (st : array) (s ps term i : Z)
    (f g : Z → Z) : Z :=
  foldl (fun nextTerm phase =>
           Z.land nextTerm
             (NEXTTERM cfg term (f (rowOfState st s phase))
                (f (rowOfState st ps phase))
                (g (rowOfState st s ((phase + 1) mod period cfg))) i))
        65535 (upto (period cfg)).

(** The loop [for (i = totalWidth-1; i >= 0; i--)] with [i = n - 1];
    [None] is the [return 0] taken when [term == 0]. *)
Fixpoint terminalCols (n : nat) (cfg : Params) (st : array) (s ps term : Z)
    : option Z :=
  match n with
  | O => Some term
  | S m =>
      if term =? 0 then None
      else terminalCols m cfg st s ps
             (foldTerm cfg st s ps term (Z.of_nat m) id id)
  end.

(** The end of [terminal], after the symmetric-completion tests. *)
Definition terminalStator (cfg : Params) (ti : TermInit) (st : array) (s : Z) : Z :=
  let ps := parentState st s in
  match terminalCols (Z.to_nat (totalWidth cfg)) cfg st s ps
                     (initialTermState ti) with
  | None => 0
  | Some term =>
      match symmetry cfg with
      | odd =>
          let nextTerm := foldTerm cfg st s ps term 0 ODDEXT (fun r => shl32 r 1) in
          if negb (Z.land (revTerm nextTerm) term =? 0) then 1 else 0
      | even =>
          let nextTerm := foldTerm cfg st s ps term 0 EVEXT (fun r => shl32 r 1) in
          if negb (Z.land (revTerm nextTerm) nextTerm =? 0) then 1 else 0
      | none =>
          let nextTerm := foldTerm cfg st s ps term 0
                            (fun r => shl32 r 1) (fun r => shl32 r 1) in
          let term := nextTerm in
          let nextTerm := foldTerm cfg st s ps term 0
                            (fun r => shl32 r 2) (fun r => shl32 r 2) in
          if negb (Z.land (revTerm nextTerm) (initialTermState ti) =? 0)
          then 1 else 0
      end
  end.

(** [terminal]: the returned [int] and the values left in [row_symmetry]
    and [row_sym_phase_offset]. *)
Definition terminal (cfg : Params) (ti : TermInit) (st : array) (rs : RowSym)
    (s : Z) : Z * RowSym :=
  let ps := parentState st s in
  let off := row_sym_phase_offset rs in
  if ps =? s then (0, {| row_symmetry := none; row_sym_phase_offset := off |})
  else if negb (allow_row_sym cfg =? 0) then
    let pps := parentState st ps in
    if sameRows cfg st s ps 0
    then (1, {| row_symmetry := even; row_sym_phase_offset := 0 |})
    else if sameRows cfg st s pps 0
    then (1, {| row_symmetry := odd; row_sym_phase_offset := 0 |})
    else if Z.land (period cfg) 1 =? 0 then
      let off := Z.shiftr (period cfg) 1 in
      if sameRows cfg st s ps off
      then (1, {| row_symmetry := even; row_sym_phase_offset := off |})
      else if sameRows cfg st s pps off
      then (1, {| row_symmetry := odd; row_sym_phase_offset := off |})
      else (terminalStator cfg ti st s,
            {| row_symmetry := none; row_sym_phase_offset := off |})
    else (terminalStator cfg ti st s,
          {| row_symmetry := none; row_sym_phase_offset := 0 |})
  else (terminalStator cfg ti st s,
        {| row_symmetry := none; row_sym_phase_offset := off |}).

(* ================================================================== *)
(** ** [terminate]: find the stator that finishes off a pattern *)
(* ================================================================== *)

(** [bestTerm], [predTerm] and the pair recorded by [terminateCols]. *)
Record Stator := {
  bestTerm : array;
  predTerm : array;
  fwdBestTerm : Z;
  backBestTerm : Z
}.

(** The index of [BT(col,i,j)] and [PT(col,i,j)]. *)
Definition BTidx (col i j : Z) : Z :=
  Z.lor (Z.lor (Z.shiftl (col + 2) 10) (Z.shiftl i 5)) j.

Definition BT (sr : Stator) (col i j : Z) : Z := rd (bestTerm sr) (BTidx col i j).
Definition PT (sr : Stator) (col i j : Z) : Z := rd (predTerm sr) (BTidx col i j).

(** [terminateCols]: the returned [int] and the recorded pair. *)
Definition terminateCols (sr : Stator) (backCol fwdCol : Z) : Z * Stator :=
  let '(bestCount, back, fwd) :=
    foldl (fun acc i =>
      foldl (fun '(bestCount, back, fwd) j =>
        if (BT sr backCol i j <? 0) || (BT sr fwdCol j i <? 0)
        then (bestCount, back, fwd)
        else
          let tot := BT sr backCol i j + BT sr fwdCol j i
                     - bitCount i - bitCount j in
          if tot <? bestCount then (tot, i, j) else (bestCount, back, fwd))
        acc (upto 32))
      (32767 (* 0x7fff *), backBestTerm sr, fwdBestTerm sr) (upto 32) in
  (if bestCount <? 32767 then 1 else 0,
   {| bestTerm := bestTerm sr; predTerm := predTerm sr;
      fwdBestTerm := fwd; backBestTerm := back |}).

(** [stabilizes].  For [col >= 0] the rows are shifted right by [col]; the
    shift counts of the source stay below 32 as long as
    [totalWidth + addlStatorCols <= 32]. *)
Definition stabilizes (cfg : Params) (st : array) (i j k s col : Z) : bool :=
  let ijk := Z.lor (Z.lor (Z.shiftl (Z.land i 3) 11) (Z.shiftl (Z.land j 3) 9))
                   (Z.shiftl (Z.land k 3) 7) in
  let adj (r : Z) : Z :=
    if 0 <=? col then Z.shiftr r col
    else match symmetry cfg with
         | odd => Z.lor (shl32 r 1) (Z.land (Z.shiftr r 1) 1)
         | even => Z.lor (shl32 r 1) (Z.land r 1)
         | none => shl32 r (- col)
         end in
  forallb (fun phase =>
             let r := adj (rowOfState st s phase) in
             let pr := adj (rowOfState st (parentState st s) phase) in
             let sr := adj (rowOfState st s ((phase + 1) mod period cfg)) in
             stabtab cfg (Z.lor (Z.lor (Z.lor ijk (Z.shiftl (Z.land r 7) 4))
                                       (Z.shiftl (Z.land pr 7) 1))
                                (Z.land (Z.shiftr sr 1) 1)))
          (upto (period cfg)).

(** [for (i ...) for (j ...) BT(col,i,j) = -1;] *)
Definition clearCol (bt : array) (col : Z) : array :=
  foldl (fun bt i => foldl (fun bt j => wr bt (BTidx col i j) (-1)) bt (upto 32))
        bt (upto 32).

(** One round of the [while] loop of [terminate] for the column [col]
    (already decremented): the tables and [foundAny]. *)
Definition terminateCol (cfg : Params) (st : array) (s col : Z)
    (bt pt : array) : array * array * bool :=
  let bt := clearCol bt col in
  foldl (fun acc i =>
    foldl (fun acc j =>
      let '(bt, pt, foundAny) := acc in
      if 0 <=? rd bt (BTidx (col + 1) i j) then
        foldl (fun '(bt, pt, foundAny) k =>
          if tcompatible cfg i j k
             && (rd bt (BTidx (col + 1) i j) + bitCount k
                 <? Z.land (rd bt (BTidx col j k)) 32767 (* 0x7fff *))
             && stabilizes cfg st i j k s col
          then (wr bt (BTidx col j k) (rd bt (BTidx (col + 1) i j) + bitCount k),
                wr pt (BTidx col j k) i, true)
          else (bt, pt, foundAny))
          (bt, pt, foundAny) (upto 32)
      else acc)
      acc (upto 32))
    (bt, pt, false) (upto 32).

(** [while (col > lastCol)], run for [n = col - lastCol] rounds; [None] is
    the [return 0] taken when a column finds nothing. *)
Fixpoint terminateLoop (n : nat) (cfg : Params) (st : array) (s col : Z)
    (bt pt : array) : option (array * array) :=
  match n with
  | O => Some (bt, pt)
  | S m =>
      let col := col - 1 in
      let '(bt, pt, foundAny) := terminateCol cfg st s col bt pt in
      if foundAny then terminateLoop m cfg st s col bt pt else None
  end.

(** [terminate]: the returned [int] and the tables. *)
Definition terminate (cfg : Params) (ti : TermInit) (st : array) (sr : Stator)
    (s : Z) : Z * Stator :=
  let col := totalWidth cfg + addlStatorCols ti in
  let lastCol := match symmetry cfg with none => -2 | _ => -1 end in
  let col := if col >? 63 then 63 else col in
  let bt := clearCol (bestTerm sr) col in
  let bt := wr bt (BTidx col 0 0) 0 in     (* empty stator has no cells *)
  let pt := wr (predTerm sr) (BTidx col 0 0) 0 in
  match terminateLoop (Z.to_nat (col - lastCol)) cfg st s col bt pt with
  | None => (0, {| bestTerm := bt; predTerm := pt;
                   fwdBestTerm := fwdBestTerm sr;
                   backBestTerm := backBestTerm sr |})
  | Some (bt, pt) =>
      let sr := {| bestTerm := bt; predTerm := pt;
                   fwdBestTerm := fwdBestTerm sr;
                   backBestTerm := backBestTerm sr |} in
      match symmetry cfg with
      | even => terminateCols sr (-1) (-1)
      | odd => terminateCols sr (-1) 0
      | none => terminateCols sr (totalWidth cfg) (-2)
      end
  end.

(* ================================================================== *)
(** ** Output of a found pattern *)
(* ================================================================== *)

(** Text written to [stdout], as the list of its characters. *)
Definition newline : ascii := ascii_of_nat 10.

(** [putCell] *)
Definition putCell (row bit : Z) : list ascii :=
  [if Z.testbit row bit then "o"%char else "."%char].

(** [for (bit = hi; bit >= lo; bit--) putCell(theRow, bit)] *)
Definition putCellsDown (theRow hi lo : Z) : list ascii :=
  concat (map (fun b => putCell theRow b) (reverse (seqZ lo (hi - lo + 1)))).

(** [putRow] *)
Definition putRow (cfg : Params) (ti : TermInit) (theRow : Z) : list ascii :=
  replicate (Z.to_nat (addlStatorCols ti)) "."%char
  ++ match symmetry cfg with
     | none => if addlStatorCols ti =? 0 then ["."%char] else []
     | odd => putCellsDown theRow (totalWidth cfg - 1) 1
     | even => putCellsDown theRow (totalWidth cfg - 1) 0
     end
  ++ concat (map (fun b => putCell theRow b)
                 (upto (totalWidth cfg + addlStatorCols ti)))
  ++ [newline].

(** [putStator(row, col, i, j, reversed, skip)]; the recursion of the source
    is on [col], up to [totalWidth + addlStatorCols - 1]; here [n] counts
    the columns still to come. *)
Fixpoint putStator_rec (n : nat) (sr : Stator) (row col i j : Z)
    (reversed : bool) (skip : Z) : list ascii :=
  (if (skip <=? 0) && reversed then putCell j row else [])
  ++ match n with
     | O => []
     | S m => putStator_rec m sr row (col + 1) (PT sr col i j) i reversed (skip - 1)
     end
  ++ (if (skip <=? 0) && negb reversed then putCell j row else []).

Definition putStator (cfg : Params) (ti : TermInit) (sr : Stator)
    (row col i j : Z) (reversed : bool) (skip : Z) : list ascii :=
  putStator_rec (Z.to_nat (totalWidth cfg + addlStatorCols ti - 1 - col))
                sr row col i j reversed skip.

(** The first loop of [success]: the rows of phase 0 and of phase
    [row_sym_phase_offset] along the parent links, last state first. *)
Fixpoint successChain (fuel : nat) (st : array) (off s : Z)
    : option (list (Z * Z)) :=
  match fuel with
  | O => None
  | S f =>
      if negb (parentState st s =? s) && negb (s =? 0) then
        l ← successChain f st off (parentState st s);
        Some ((rowOfState st s 0, rowOfState st s off) :: l)
      else Some []
  end.

(** The result of a routine that may end the program. *)
Inductive Outcome (A : Type) :=
  | Done (a : A)              (* the routine returned *)
  | Found (out : list ascii)  (* [success] printed a pattern and called [exit] *)
  | Aborted                   (* [failure()]: a diagnostic, then [exit] *)
  | OutOfFuel.                (* the model's step budget ran out *)
Arguments Done {A} a.
Arguments Found {A} out.
Arguments Aborted {A}.
Arguments OutOfFuel {A}.

Definition obind {A B} (o : Outcome A) (f : A → Outcome B) : Outcome B :=
  match o with
  | Done a => f a
  | Found out => Found out
  | Aborted => Aborted
  | OutOfFuel => OutOfFuel
  end.

Definition ofOption {A} (o : option A) : Outcome A :=
  match o with Some a => Done a | None => Aborted end.

Definition ofFuel {A} (o : option A) : Outcome A :=
  match o with Some a => Done a | None => OutOfFuel end.

(** [success]: [Done] is the early [return] ("incomplete success"); otherwise
    the pattern is printed and the program exits. *)
Definition success (fuel : nat) (cfg : Params) (ti : TermInit) (st : array)
    (rs : RowSym) (sr : Stator) (s : Z) : Outcome Stator :=
  let '(t, sr) :=
    if sym_type_eqb (row_symmetry rs) none then terminate cfg ti st sr s
    else (1, sr) in
  if t =? 0 then Done sr   (* incomplete success *)
  else
    obind (ofFuel (successChain fuel st (row_sym_phase_offset rs) s))
    (fun chain =>
       let first := concat (map (fun r => putRow cfg ti (fst r)) (reverse chain)) in
       let mirrored (from : nat) :=
         concat (map (fun r => putRow cfg ti (snd r)) (drop from chain)) in
       let five (f : Z → list ascii) := concat (map f (upto 5)) in
       Found
         ([newline] ++ first ++
          match row_symmetry rs with
          | even => mirrored 2%nat
          | odd => mirrored 3%nat
          | none =>
              let fw := fwdBestTerm sr in
              let bk := backBestTerm sr in
              match symmetry cfg with
              | odd =>
                  five (fun i => putStator cfg ti sr i 0 fw bk false 1
                                 ++ putStator cfg ti sr i (-1) bk fw true 1
                                 ++ [newline])
              | even =>
                  five (fun i => putStator cfg ti sr i (-1) fw bk false 1
                                 ++ putStator cfg ti sr i (-1) bk fw true 1
                                 ++ [newline])
              | none =>
                  five (fun i => putStator cfg ti sr i (totalWidth cfg) bk fw false 1
                                 ++ putStator cfg ti sr i (-2) fw bk true 1
                                 ++ [newline])
              end
          end)).

(* ================================================================== *)
(** ** Successors of a state: [makeNewState], [processGroup] *)
(* ================================================================== *)

(** [makeNewState]: make a new state out of the selected row indices.
    [None] is the abort of [nextState]. *)
Definition makeNewState (cfg : Params) (cd : Cand) (q : Queue) (h : Hash)
    (parent : Z) : option (Queue * Hash) :=
  let s := firstFreeState q in
  let st := setParentState (statespace q) s parent in
  ff ← nextState cfg s;   (* make sure we're not at end of array *)
  let st :=
    foldl (fun st phase =>
             setRowOfState st s phase
               (rd (rows cd) (rd (firstRow cd) phase + rd (rowIndices cd) phase)))
          st (upto (period cfg)) in
  let mk (f : Z) : Queue :=
    {| statespace := st; firstUnprocessedState := firstUnprocessedState q;
       firstFreeState := f |} in
  if (parentState st parent =? parent)
     && negb (existsb (fun phase => negb (rowOfState st s phase =? 0))
                      (upto (period cfg)))
  then Some (mk s, h)     (* zero successor of zero, abort *)
  else if negb (hashing cfg =? 0) then
    let '(r, h) := hash cfg h st s in
    if negb (r =? 0) then Some (mk s, h) (* duplicate: abort new state *)
    else Some (mk ff, h)
  else Some (mk ff, h).

(** The state of the whole search, one component per group of globals. *)
Record Machine := {
  queue : Queue;
  hashS : Hash;
  cand : Cand;
  lastRow : array;
  compat : Compat;
  reach : Reach;
  extensions : array;
  rowSym : RowSym;
  stator : Stator
}.

Definition set_queue (m : Machine) (q : Queue) : Machine :=
  {| queue := q; hashS := hashS m; cand := cand m; lastRow := lastRow m;
     compat := compat m; reach := reach m; extensions := extensions m;
     rowSym := rowSym m; stator := stator m |}.
Definition set_hashS (m : Machine) (h : Hash) : Machine :=
  {| queue := queue m; hashS := h; cand := cand m; lastRow := lastRow m;
     compat := compat m; reach := reach m; extensions := extensions m;
     rowSym := rowSym m; stator := stator m |}.
Definition set_cand (m : Machine) (c : Cand) : Machine :=
  {| queue := queue m; hashS := hashS m; cand := c; lastRow := lastRow m;
     compat := compat m; reach := reach m; extensions := extensions m;
     rowSym := rowSym m; stator := stator m |}.
Definition set_lastRow (m : Machine) (a : array) : Machine :=
  {| queue := queue m; hashS := hashS m; cand := cand m; lastRow := a;
     compat := compat m; reach := reach m; extensions := extensions m;
     rowSym := rowSym m; stator := stator m |}.
Definition set_compat (m : Machine) (c : Compat) : Machine :=
  {| queue := queue m; hashS := hashS m; cand := cand m; lastRow := lastRow m;
     compat := c; reach := reach m; extensions := extensions m;
     rowSym := rowSym m; stator := stator m |}.
Definition set_reach (m : Machine) (r : Reach) : Machine :=
  {| queue := queue m; hashS := hashS m; cand := cand m; lastRow := lastRow m;
     compat := compat m; reach := r; extensions := extensions m;
     rowSym := rowSym m; stator := stator m |}.
Definition set_extensions (m : Machine) (e : array) : Machine :=
  {| queue := queue m; hashS := hashS m; cand := cand m; lastRow := lastRow m;
     compat := compat m; reach := reach m; extensions := e;
     rowSym := rowSym m; stator := stator m |}.
Definition set_rowSym (m : Machine) (r : RowSym) : Machine :=
  {| queue := queue m; hashS := hashS m; cand := cand m; lastRow := lastRow m;
     compat := compat m; reach := reach m; extensions := extensions m;
     rowSym := r; stator := stator m |}.
Definition set_stator (m : Machine) (r : Stator) : Machine :=
  {| queue := queue m; hashS := hashS m; cand := cand m; lastRow := lastRow m;
     compat := compat m; reach := reach m; extensions := extensions m;
     rowSym := rowSym m; stator := r |}.
Definition set_firstFreeState (m : Machine) (f : Z) : Machine :=
  set_queue m {| statespace := statespace (queue m);
                 firstUnprocessedState := firstUnprocessedState (queue m);
                 firstFreeState := f |}.
Definition set_firstUnprocessedState (m : Machine) (f : Z) : Machine :=
  set_queue m {| statespace := statespace (queue m);
                 firstUnprocessedState := f;
                 firstFreeState := firstFreeState (queue m) |}.
Definition set_statespace (m : Machine) (st : array) : Machine :=
  set_queue m {| statespace := st;
                 firstUnprocessedState := firstUnprocessedState (queue m);
                 firstFreeState := firstFreeState (queue m) |}.

(** The calls of [testCompatible] made by [processGroup] for one [phase]:
    the pairs of offsets [(i, j)] in the order of the two nested loops,
    [i] over the rows of the previous phase and, inside, [j] over the rows
    of [phase]. *)
Definition compatPairs (cfg : Params) (cd : Cand) (phase : Z) : list (Z * Z) :=
  i ← upto (rd (nRows cd) (prevPhaseOf cfg phase));
  j ← upto (rd (nRows cd) phase);
  [(i, j)].

Definition compatCall (cfg : Params) (tb : Tables) (st : array) (cd : Cand)
    (s phase : Z) (acc : option (Compat * array)) (ij : Z * Z)
    : option (Compat * array) :=
  '(cp, ext) ← acc;
  testCompatible cfg tb st cd cp ext phase
    (rd (firstRow cd) (prevPhaseOf cfg phase) + fst ij)
    (rd (firstRow cd) phase + snd ij) s.

(** The first loop of [processGroup]: set up compatibility information for
    extensions in adjacent phases. *)
Definition compatSetup (cfg : Params) (tb : Tables) (st : array) (s : Z)
    (cd : Cand) (cp : Compat) (ext : array) : option (Cand * Compat * array) :=
  foldl (fun acc phase =>
           '(cd, cp, ext) ← acc;
           let cd := set_rowIndices cd (wr (rowIndices cd) phase (-1)) in
           '(cp, ext) ← foldl (compatCall cfg tb st cd s phase)
                              (Some (cp, ext)) (compatPairs cfg cd phase);
           Some (cd, cp, ext))
        (Some (cd, cp, ext)) (upto (period cfg)).

(** [while (rowIndices[phase] == nRows[phase]-1) { rowIndices[phase] = -1;
    phase--; if (phase < 0) return; }] with [n = phase + 1]; the phase is
    [None] when the function returns. *)
Fixpoint groupRewind (n : nat) (cd : Cand) : Cand * option Z :=
  match n with
  | O => (cd, None)
  | S m =>
      let phase := Z.of_nat m in
      if rd (rowIndices cd) phase =? rd (nRows cd) phase - 1
      then groupRewind m (set_rowIndices cd (wr (rowIndices cd) phase (-1)))
      else (cd, Some phase)
  end.

(** The loop [for (;;)] of [processGroup] through all sequences of
    compatible extension rows; [phase] is the value before [phase++]. *)
Fixpoint groupLoop (fuel : nat) (cfg : Params) (cp : Compat) (rc : Reach)
    (s : Z) (cd : Cand) (q : Queue) (h : Hash) (phase : Z)
    : Outcome (Cand * Queue * Hash) :=
  match fuel with
  | O => OutOfFuel
  | S f =>
      let phase := phase + 1 in
      match groupRewind (Z.to_nat (phase + 1)) cd with
      | (cd, None) => Done (cd, q, h)
      | (cd, Some phase) =>
          let cd := set_rowIndices cd
                      (wr (rowIndices cd) phase (rd (rowIndices cd) phase + 1)) in
          if reachable cd rc phase (rd (rowIndices cd) 0) (rd (rowIndices cd) phase)
             =? 0
          then groupLoop f cfg cp rc s cd q h (phase - 1)
          else if (0 <? phase)
                  && (compatible cfg cd cp phase
                        (rd (firstRow cd) (phase - 1) + rd (rowIndices cd) (phase - 1))
                        (rd (firstRow cd) phase + rd (rowIndices cd) phase) =? 0)
          then groupLoop f cfg cp rc s cd q h (phase - 1)
          else if phase =? period cfg - 1 then
            if negb (compatible cfg cd cp 0
                       (rd (firstRow cd) phase + rd (rowIndices cd) phase)
                       (rd (firstRow cd) 0 + rd (rowIndices cd) 0) =? 0)
            then
              match makeNewState cfg cd q h s with
              | None => Aborted
              | Some (q, h) => groupLoop f cfg cp rc s cd q h (phase - 1)
              end
            else groupLoop f cfg cp rc s cd q h (phase - 1)
          else groupLoop f cfg cp rc s cd q h phase
      end
  end.

(** [processGroup]: handle a subset of rows having a common stator. *)
Definition processGroup (fuel : nat) (cfg : Params) (tb : Tables) (m : Machine)
    (s : Z) : Outcome Machine :=
  obind (ofOption (compatSetup cfg tb (statespace (queue m)) s (cand m)
                               (compat m) (extensions m)))
  (fun '(cd, cp, ext) =>
  obind (ofOption (testReachable cfg cd cp (reach m)))
  (fun rc =>
  obind (groupLoop fuel cfg cp rc s cd (queue m) (hashS m) (-1))
  (fun '(cd, q, h) =>
     Done {| queue := q; hashS := h; cand := cd; lastRow := lastRow m;
             compat := cp; reach := rc; extensions := ext;
             rowSym := rowSym m; stator := stator m |}))).

(* ================================================================== *)
(** ** Stator groups: [statorCompare], [findStatorGroup], [process] *)
(* ================================================================== *)

(** [statorCompare]: the [qsort] comparison of two rows. *)
Definition statorCompare (cfg : Params) (pr qr : Z) : Z :=
  if negb (statorOf cfg pr =? statorOf cfg qr)
  then i32 (u32 (statorOf cfg pr - statorOf cfg qr))
  else i32 (u32 (pr - qr)).

(** [qsort] belongs to the C library; it is modelled by insertion in the
    order decided by the comparison function. *)
Fixpoint sortInsert (cmp : Z → Z → Z) (x : Z) (l : list Z) : list Z :=
  match l with
  | [] => [x]
  | y :: l' => if cmp x y <=? 0 then x :: l else y :: sortInsert cmp x l'
  end.

Definition qsort (cmp : Z → Z → Z) (a : array) (first n : Z) : array :=
  let seg := map (fun i => rd a (first + i)) (upto n) in
  let sorted := foldr (sortInsert cmp) [] seg in
  foldl (fun a '(i, x) => wr a (first + i) x) a (zip (upto n) sorted).

(** [while (stator > (rows[firstRow[phase]] & STATMASK)) if
    (++firstRow[phase] >= lastRow[phase]) ...]: the final [firstRow[phase]]
    and whether the phase ran out of rows. *)
Fixpoint skipStators (fuel : nat) (cfg : Params) (rws : array) (last stator fr : Z)
    : Outcome (Z * bool) :=
  match fuel with
  | O => OutOfFuel
  | S f =>
      if statorOf cfg (rd rws fr) <? stator then
        if fr + 1 >=? last then Done (fr + 1, true)
        else skipStators f cfg rws last stator (fr + 1)
      else Done (fr, false)
  end.

(** [while (firstRow[phase]+nRows[phase] < lastRow[phase] && stator ==
    (rows[firstRow[phase]+nRows[phase]] & STATMASK)) nRows[phase]++] *)
Fixpoint countStators (fuel : nat) (cfg : Params) (rws : array)
    (last stator fr n : Z) : Outcome Z :=
  match fuel with
  | O => OutOfFuel
  | S f =>
      if (fr + n <? last) && (stator =? statorOf cfg (rd rws (fr + n)))
      then countStators f cfg rws last stator fr (n + 1)
      else Done n
  end.

(** The loop over the phases of [findStatorGroup]; the flag tells whether
    the group was built in every phase (no early [return]). *)
Fixpoint statorGroupPhases (fuel : nat) (cfg : Params) (lastRow : array)
    (phases : list Z) (stator : Z) (cd : Cand) : Outcome (Cand * bool) :=
  match phases with
  | [] => Done (cd, true)
  | phase :: rest =>
      (* move past previous stator groups *)
      let cd := set_firstRow cd (wr (firstRow cd) phase
                                    (rd (firstRow cd) phase + rd (nRows cd) phase)) in
      let cd := set_nRows cd (wr (nRows cd) phase 0) in
      (* find rows with correct stator *)
      let found : Outcome (Cand * option Z) :=
        if phase =? 0
        then Done (cd, Some (statorOf cfg (rd (rows cd) (rd (firstRow cd) 0))))
        else
          obind (skipStators fuel cfg (rows cd) (rd lastRow phase) stator
                             (rd (firstRow cd) phase))
          (fun '(fr, ranOut) =>
             let cd := set_firstRow cd (wr (firstRow cd) phase fr) in
             if ranOut then
               (* ran out of rows in one phase: make process() terminate
                  the stator group loop *)
               Done (set_firstRow cd (wr (firstRow cd) 0 (rd lastRow 0)), None)
             else if negb (stator =? statorOf cfg (rd (rows cd) fr))
             then Done (cd, None)   (* no matches in phase *)
             else Done (cd, Some stator)) in
      obind found
      (fun '(cd, ostator) =>
         match ostator with
         | None => Done (cd, false)
         | Some stator =>
             obind (countStators fuel cfg (rows cd) (rd lastRow phase) stator
                                 (rd (firstRow cd) phase) (rd (nRows cd) phase))
             (fun n =>
                statorGroupPhases fuel cfg lastRow rest stator
                  (set_nRows cd (wr (nRows cd) phase n)))
         end)
  end.

(** [findStatorGroup]: find a single stator group and process it. *)
Definition findStatorGroup (fuel : nat) (cfg : Params) (tb : Tables)
    (m : Machine) (s : Z) : Outcome Machine :=
  obind (statorGroupPhases fuel cfg (lastRow m) (upto (period cfg)) 0 (cand m))
  (fun '(cd, built) =>
     let m := set_cand m cd in
     if built then processGroup fuel cfg tb m s else Done m).

(** The spark mask chosen by [process]. *)
Definition sparkMaskOf (cfg : Params) (st : array) (s : Z) : Z :=
  if sparkLevel cfg =? 0 then u32 (-1)
  else
    let p := parentState st (parentState st s) in  (* discount original two rows *)
    let level :=
      if negb (parentState st p =? p) then
        if negb (parentState st (parentState st p) =? parentState st p)
        then 2 else 1
      else 0 in
    if sparkLevel cfg >? level then
      if sparkLevel cfg >? level + 1
      then u32 (Z.lnot (EXTIDX 0 (-1) (-1) (-1)))
      else u32 (Z.lnot (EXTIDX 0 0 (-1) 0))
    else u32 (-1).

(** The loop of [process] that lists the extension rows of every phase; the
    flag is [false] when a phase has no possible extension (the early
    [return]); [None] is the abort of [listRows]. *)
Fixpoint listPhases (phases : list Z) (cfg : Params) (tb : Tables) (st : array)
    (s sparkMask : Z) (cd : Cand) (ext : array) : option (Cand * array * bool) :=
  match phases with
  | [] => Some (cd, ext, true)
  | phase :: rest =>
      let fr := if phase =? 0 then 0
                else rd (firstRow cd) (phase - 1) + rd (nRows cd) (phase - 1) in
      let cd := set_firstRow cd (wr (firstRow cd) phase fr) in
      let cd := set_nRows cd (wr (nRows cd) phase 0) in
      let ext := setupExtensions cfg tb ext (rowOfState st s phase)
                   (rowOfState st (parentState st s) phase)
                   (rowOfState st s ((phase + 1) mod period cfg)) sparkMask in
      cd ← listRows tb ext cd 0 phase (totalWidth cfg - 1) 3;
      if rd (nRows cd) phase =? 0 then Some (cd, ext, false)
      else listPhases rest cfg tb st s sparkMask cd ext
  end.

(** The loop of [process] that sorts the rows of every phase by stator. *)
Definition sortPhases (cfg : Params) (cd : Cand) (lastRow : array) : Cand * array :=
  foldl (fun '(cd, lastRow) phase =>
           let r := qsort (statorCompare cfg) (rows cd) (rd (firstRow cd) phase)
                          (rd (nRows cd) phase) in
           (set_nRows (set_rows cd r) (wr (nRows cd) phase 0),
            wr lastRow phase (rd (firstRow cd) phase + rd (nRows cd) phase)))
        (cd, lastRow) (upto (period cfg)).

(** [while (firstRow[0]+nRows[0] < lastRow[0]) findStatorGroup(s);] *)
Fixpoint statorGroups (fuel : nat) (cfg : Params) (tb : Tables) (m : Machine)
    (s : Z) : Outcome Machine :=
  match fuel with
  | O => OutOfFuel
  | S f =>
      if rd (firstRow (cand m)) 0 + rd (nRows (cand m)) 0 <? rd (lastRow m) 0
      then obind (findStatorGroup fuel cfg tb m s)
                 (fun m => statorGroups f cfg tb m s)
      else Done m
  end.

(** [process]: main entry to enqueue all children of a search node. *)
Definition process (fuel : nat) (cfg : Params) (tb : Tables) (ti : TermInit)
    (m : Machine) (s : Z) : Outcome Machine :=
  let st := statespace (queue m) in
  (* check if we've finished the search! if so, success doesn't return *)
  let '(t, rs) := terminal cfg ti st (rowSym m) s in
  let m := set_rowSym m rs in
  obind (if negb (t =? 0) then
           obind (ofFuel (nontrivial fuel cfg st s))
           (fun nt =>
              if nt : bool
              then obind (success fuel cfg ti st rs (stator m) s)
                         (fun sr => Done (set_stator m sr))
              else Done m)
         else Done m)
  (fun m =>
     let sparkMask := sparkMaskOf cfg st s in
     (* find representation of set of extensions for each row *)
     obind (ofOption (listPhases (upto (period cfg)) cfg tb st s sparkMask
                                 (cand m) (extensions m)))
     (fun '(cd, ext, ok) =>
        let m := set_extensions (set_cand m cd) ext in
        if negb ok then Done m   (* no possible extensions in this phase *)
        else if u32 (STATMASK cfg) =? 0
        then processGroup fuel cfg tb m s   (* simple case: no stators *)
        else
          let '(cd, lr) := sortPhases cfg cd (lastRow m) in
          statorGroups fuel cfg tb (set_lastRow (set_cand m cd) lr) s)).

(* ================================================================== *)
(** ** Depth first search *)
(* ================================================================== *)

(** The loop [while (f < firstFreeState)] of [depthFirst], over the children
    enqueued by [process]; [rec] is the recursive call one level deeper. *)
Fixpoint depthFirstChildren (fuel : nat) (cfg : Params)
    (rec : Machine → Z → Outcome (Z * Machine)) (f : Z) (m : Machine)
    : Outcome (Z * Machine) :=
  match fuel with
  | O => OutOfFuel
  | S k =>
      if f <? firstFreeState (queue m) then
        let child := previousState cfg (firstFreeState (queue m)) in
        obind (rec m child)
        (fun '(r, m) =>
           if negb (r =? 0) then Done (1, set_firstFreeState m f)
           else depthFirstChildren k cfg rec f (set_firstFreeState m child))
      else Done (0, set_firstFreeState m f)
  end.

(** [depthFirst(s, numLevels)], for [numLevels >= 0]; [proc] is [process].
    The loop over the children is given one round per word between [f] and
    [firstFreeState], which bounds the number of children. *)
Fixpoint depthFirstWith (proc : Machine → Z → Outcome Machine) (cfg : Params)
    (numLevels : nat) (m : Machine) (s : Z) : Outcome (Z * Machine) :=
  let f := firstFreeState (queue m) in
  match numLevels with
  | O => Done (1, m)
  | S n =>
      obind (proc m s)
      (fun m =>
         depthFirstChildren
           (S (Z.to_nat (firstFreeState (queue m) - f))) cfg
           (depthFirstWith proc cfg n) f m)
  end.

Definition depthFirst (fuel : nat) (cfg : Params) (tb : Tables) (ti : TermInit)
    (numLevels : nat) (m : Machine) (s : Z) : Outcome (Z * Machine) :=
  depthFirstWith (process fuel cfg tb ti) cfg numLevels m s.

(** [deepen]: the loop over the unprocessed states. *)
Fixpoint deepenLoop (fuel : nat) (df : Machine → Z → Outcome (Z * Machine))
    (cfg : Params) (m : Machine) (s : Z) : Outcome Machine :=
  match fuel with
  | O => OutOfFuel
  | S k =>
      if s <? firstFreeState (queue m) then
        obind (df m s)
        (fun '(r, m) =>
           let m := if r =? 0
                    then set_statespace m (setParentState (statespace (queue m)) s unused)
                    else m in
           obind (ofOption (nextState cfg s))
                 (fun s => deepenLoop k df cfg m s))
      else Done m
  end.

Definition deepen (fuel : nat) (cfg : Params) (tb : Tables) (ti : TermInit)
    (numLevels : nat) (m : Machine) : Outcome Machine :=
  deepenLoop fuel (depthFirst fuel cfg tb ti numLevels) cfg m
             (firstUnprocessedState (queue m)).

(* ================================================================== *)
(** ** Garbage-collect full queue: [compact] *)
(* ================================================================== *)

(** [depth] *)
Fixpoint depth (fuel : nat) (st : array) (s i : Z) : Outcome Z :=
  match fuel with
  | O => OutOfFuel
  | S k => if negb (s =? parentState st s)
           then depth k st (parentState st s) (i + 1)
           else Done i
  end.

(** [while (parentState(y) == unused) y = previousState(y);] *)
Fixpoint skipUnused (fuel : nat) (cfg : Params) (st : array) (y : Z) : Outcome Z :=
  match fuel with
  | O => OutOfFuel
  | S k => if parentState st y =? unused
           then skipUnused k cfg st (previousState cfg y)
           else Done y
  end.

(** [while (parentState(y) != x)]: search backwards for y's parent, marking
    other nodes; [Aborted] is the sanity check "Unable to find parent of y!". *)
Fixpoint markChildless (fuel : nat) (cfg : Params) (st : array) (x y counter : Z)
    : Outcome (array * Z * Z) :=
  match fuel with
  | O => OutOfFuel
  | S k =>
      if negb (parentState st y =? x) then
        if parentState st x =? x then Aborted
        else markChildless k cfg (setParentState st x unused)
                           (previousState cfg x) y (counter + 1)
      else Done (st, x, counter)
  end.

(** [while (parentState(y) == x || parentState(y) == unused) y =
    previousState(y);]: search backwards for a non-child of x. *)
Fixpoint skipChildren (fuel : nat) (cfg : Params) (st : array) (x y : Z)
    : Outcome Z :=
  match fuel with
  | O => OutOfFuel
  | S k => if (parentState st y =? x) || (parentState st y =? unused)
           then skipChildren k cfg st x (previousState cfg y)
           else Done y
  end.

(** Queue compaction stage 1 (the [do ... while] loop): mark unused nodes.
    The result is the arena and [counter]. *)
Fixpoint markUnused (fuel : nat) (cfg : Params) (st : array) (x y counter : Z)
    : Outcome (array * Z) :=
  match fuel with
  | O => OutOfFuel
  | S k =>
      obind (markChildless fuel cfg st x y counter)
      (fun '(st, x, counter) =>
         if parentState st x =? x then Done (st, counter)
         else
           obind (skipChildren fuel cfg st x y)
           (fun y =>
              let x := previousState cfg x in  (* now done with x *)
              if negb (parentState st x =? x)
              then markUnused k cfg st x y counter
              else Done (st, counter)))
  end.

(** [x = firstState; while (parentState(x) != unused) x = nextState(x);] *)
Fixpoint firstHole (fuel : nat) (cfg : Params) (st : array) (x : Z) : Outcome Z :=
  match fuel with
  | O => OutOfFuel
  | S k => if negb (parentState st x =? unused)
           then obind (ofOption (nextState cfg x)) (firstHole k cfg st)
           else Done x
  end.

(** Queue compaction stage 2: move used nodes forward, with [x] the next
    place to move a node and [y] the next node to be moved.  The result is
    the arena, [firstUnprocessedState] and the final [x]. *)
Fixpoint slideForward (fuel : nat) (cfg : Params) (firstFree : Z) (st : array)
    (firstUnproc x y : Z) : Outcome (array * Z * Z) :=
  match fuel with
  | O => OutOfFuel
  | S k =>
      if y <? firstFree then
        obind
          (if negb (parentState st y =? unused) then
             let st := setParentState st x (parentState st y) in
             let st := foldl (fun st phase =>
                                setRowOfState st x phase (rowOfState st y phase))
                             st (upto (period cfg)) in
             obind (ofOption (nextState cfg x)) (fun x => Done (st, x))
           else Done (st, x))
        (fun '(st, x) =>
           let firstUnproc := if y =? firstUnproc then x else firstUnproc in
           obind (ofOption (nextState cfg y))
                 (fun y => slideForward k cfg firstFree st firstUnproc x y))
      else Done (st, firstUnproc, x)
  end.

(** Queue compaction stage 3: fix parent pointers, with [x] the next node to
    be fixed and [y] the old value of [parentState(previousState(x))]; every
    fixed node is hashed again. *)
Fixpoint fixParents (fuel : nat) (cfg : Params) (firstFree : Z) (st : array)
    (h : Hash) (x y : Z) : Outcome (array * Hash) :=
  match fuel with
  | O => OutOfFuel
  | S k =>
      if x <? firstFree then
        obind
          (if parentState st x =? y
           then Done (setParentState st x
                        (parentState st (previousState cfg x)), y)
           else
             let y := parentState st x in
             obind (ofOption (nextState cfg
                                (parentState st (previousState cfg x))))
                   (fun p => Done (setParentState st x p, y)))
        (fun '(st, y) =>
           let '(_, h) := hash cfg h st x in
           obind (ofOption (nextState cfg x))
                 (fun x => fixParents k cfg firstFree st h x y))
      else Done (st, h)
  end.

(** The three compaction stages of [compact], after the call of [deepen]. *)
Definition compactStages (fuel : nat) (cfg : Params) (m : Machine)
    : Outcome Machine :=
  let q := queue m in
  let x := previousState cfg (firstUnprocessedState q) in
  let y := previousState cfg (firstFreeState q) in
  let h := clearHash (hashS m) in
  obind (skipUnused fuel cfg (statespace q) y)
  (fun y =>
  obind (markUnused fuel cfg (statespace q) x y 0)
  (fun '(st, counter) =>
     if negb (counter =? 0) then
       obind (firstHole fuel cfg st firstState)
       (fun x =>
       obind (slideForward fuel cfg (firstFreeState q) st
                           (firstUnprocessedState q) x x)
       (fun '(st, firstUnproc, x) =>
          let firstFree := x in
          obind (ofOption (nextState cfg firstState))
          (fun x =>
          obind (fixParents fuel cfg firstFree st h x firstState)
          (fun '(st, h) =>
             Done (set_hashS
                     (set_queue m {| statespace := st;
                                     firstUnprocessedState := firstUnproc;
                                     firstFreeState := firstFree |}) h)))))
     else Done (set_hashS (set_statespace m st) h))).

(** The search driver's own state: the parameters ([compact] may shrink the
    rotor), the static [lastDepth] of [compact], and the machine. *)
Record Driver := {
  params : Params;
  lastDepth : Z;
  mach : Machine
}.

(** The rotor shrinking step of [compact]. *)
Definition shrinkRotor (cfg : Params) : Params :=
  let rotor := rotorWidth cfg - 1 in
  let rightW := rightStatorWidth cfg + 1 in
  let '(leftW, rotor) :=
    if (0 <? leftStatorWidth cfg) && (0 <? rotor)
    then (leftStatorWidth cfg + 1, rotor - 1)
    else (leftStatorWidth cfg, rotor) in
  {| symmetry := symmetry cfg; allow_row_sym := allow_row_sym cfg;
     rule := rule cfg; period := period cfg; rotorWidth := rotor;
     leftStatorWidth := leftW; rightStatorWidth := rightW;
     maxDeepen := maxDeepen cfg; hashing := hashing cfg;
     sparkLevel := sparkLevel cfg; zeroLotLine := zeroLotLine cfg |}.

(** [compact]; [dp] is [deepen], called with [hashing = 0]. *)
Definition compactWith
    (dp : Params → nat → Machine → Outcome Machine)
    (fuel : nat) (d : Driver) : Outcome Driver :=
  let cfg := params d in
  let m := mach d in
  obind (depth fuel (statespace (queue m)) (firstUnprocessedState (queue m)) 0)
  (fun frontierDepth =>
     let lastDepth := if frontierDepth >? lastDepth d then frontierDepth
                      else lastDepth d in
     let lastDepth := lastDepth + 1 in
     let '(cfg, lastDepth) :=
       if (0 <? maxDeepen cfg) && (0 <? rotorWidth cfg)
          && (maxDeepen cfg <? lastDepth - frontierDepth)
       then (shrinkRotor cfg, frontierDepth + 1)
       else (cfg, lastDepth) in
     obind (dp (set_hashing cfg 0) (Z.to_nat (lastDepth - frontierDepth)) m)
     (fun m =>
        let cfg := set_hashing cfg 1 in
        obind (compactStages fuel cfg m)
        (fun m => Done {| params := cfg; lastDepth := lastDepth; mach := m |}))).

Definition compact (fuel : nat) (tb : Tables) (ti : TermInit) (d : Driver)
    : Outcome Driver :=
  compactWith (fun cfg n m => deepen fuel cfg tb ti n m) fuel d.

(* ================================================================== *)
(** ** Breadth first search *)
(* ================================================================== *)

(** One round of the loop of [breadthFirst]. *)
Definition breadthFirstStep (fuel : nat) (tb : Tables) (ti : TermInit)
    (d : Driver) : Outcome Driver :=
  obind (if firstFreeState (queue (mach d)) >=? queueFull
         then compact fuel tb ti d else Done d)
  (fun d =>
     let s := firstUnprocessedState (queue (mach d)) in
     obind (ofOption (nextState (params d) s))
     (fun n =>
        obind (process fuel (params d) tb ti
                       (set_firstUnprocessedState (mach d) n) s)
        (fun m => Done {| params := params d; lastDepth := lastDepth d;
                          mach := m |}))).

(** [breadthFirst], for at most [rounds] rounds of its loop: [Done (d, true)]
    when the queue is exhausted, [Done (d, false)] when [rounds] ran out. *)
Fixpoint breadthFirst (rounds fuel : nat) (tb : Tables) (ti : TermInit)
    (d : Driver) : Outcome (Driver * bool) :=
  if firstUnprocessedState (queue (mach d)) =? firstFreeState (queue (mach d))
  then Done (d, true)
  else
    match rounds with
    | O => Done (d, false)
    | S r => obind (breadthFirstStep fuel tb ti d) (breadthFirst r fuel tb ti)
    end.

(** The globals as [main] leaves them before the search. *)
Definition emptyHash (hv hp : array) : Hash :=
  {| hashTable := ∅; hashValTab := hv; hashValPTab := hp |}.

Definition initialMachine (q : Queue) (h : Hash) : Machine :=
  {| queue := q; hashS := h;
     cand := {| rows := ∅; firstRow := ∅; nRows := ∅; rowIndices := ∅ |};
     lastRow := ∅;
     compat := {| compatBits := ∅; firstCompat := ∅; compatBlockLength := ∅ |};
     reach := {| reachBits := ∅; firstReach := ∅ |};
     extensions := ∅;
     rowSym := {| row_symmetry := none; row_sym_phase_offset := 0 |};
     stator := {| bestTerm := ∅; predTerm := ∅; fwdBestTerm := 0;
                  backBestTerm := 0 |} |}.

Definition initialDriver (cfg : Params) (h : Hash) : option Driver :=
  q ← makeInitialStates cfg;
  Some {| params := cfg; lastDepth := 0; mach := initialMachine q h |}.

(* ================================================================== *)
(** * Specification-side notions and example inputs *)
(* ================================================================== *)

(** The definitions below are not part of the program: they state what the
    program is compared with, or fix concrete inputs on which it is run. *)

(** The projection the tables are meant to hold, written from the
    description of the context bitmaps: the 3-cell context [(a,b,c)] sits
    at bit [a + 2b + 4c]; consuming one cell keeps [(a,b)] as the last two
    cells of the next context, whose new first cell is free, so it yields
    the two contexts [(0,a,b)] and [(1,a,b)], bits [2a+4b] and [2a+4b+1]. *)
Definition project_context (n : Z) : Z := Z.shiftl 3 (2 * (n mod 4)).

Definition context_projection (x : Z) : Z :=
  foldl (fun y n => if Z.testbit x n then Z.lor y (project_context n) else y)
        0 (upto 8).

(** The order the sort is meant to produce: stator bits ascending, ties
    broken by the full row value ascending. *)
Definition stator_lt (cfg : Params) (p q : Z) : Prop :=
  statorOf cfg p < statorOf cfg q ∨ (statorOf cfg p = statorOf cfg q ∧ p < q).

(** The widths of the failing configuration: 32 columns, one stator column
    on each side. *)
Definition width32 : Params :=
  {| symmetry := none; allow_row_sym := 1; rule := 4108 (* 010014 *);
     period := 2; rotorWidth := 30; leftStatorWidth := 1;
     rightStatorWidth := 1; maxDeepen := 0; hashing := 1; sparkLevel := 0;
     zeroLotLine := 0 |}.


(** Conway's Life (B3/S23, [rule = 010014]) at period 2 without symmetry,
    three rotor columns and no stator columns. *)
Definition life2 : Params :=
  {| symmetry := none; allow_row_sym := 1; rule := 4108 (* 010014 *);
     period := 2; rotorWidth := 3; leftStatorWidth := 0;
     rightStatorWidth := 0; maxDeepen := 0; hashing := 1; sparkLevel := 0;
     zeroLotLine := 0 |}.

(** What [initTermTabs] computes for [life2]. *)
Definition life2Term : TermInit :=
  {| initialTermState := 65535; addlStatorCols := 3 |}.

(** The machine at the start of the search for [life2], with all hash
    salts equal to 0. *)
Definition life2Start : Machine :=
  initialMachine
    {| statespace := foldl (fun st phase => setRowOfState st 0 phase 0)
                           (setParentState ∅ 0 0) (upto 2);
       firstUnprocessedState := 0; firstFreeState := 3 |}
    (emptyHash ∅ ∅).

(** [t] holds the same rows as [s] in every phase, and so do their
    parents: the full per-phase equality check of the duplicate test. *)
Definition duplicates (cfg : Params) (st : array) (s t : Z) : Prop :=
  ∀ phase, 0 <= phase < period cfg →
    rowOfState st t phase = rowOfState st s phase
    ∧ rowOfState st (parentState st t) phase
      = rowOfState st (parentState st s) phase.

(** The successive keys of the probe sequence, [key += key >> 16]. *)
Definition probeKey (key : Z) (n : nat) : Z :=
  Nat.iter n (fun k => k + Z.shiftr k 16) key.

(** The index and the content of the [n]-th slot of the probe sequence. *)
Definition probeIndex (key : Z) (n : nat) : Z := Z.land (probeKey key n) HASHMASK.
Definition probeSlot (tab : array) (key : Z) (n : nat) : Z :=
  rd tab (probeIndex key n).

(** The probe sequence of [s] reaches its [n]-th slot: every earlier slot is
    occupied by a state that is not a duplicate of [s]. *)
Definition probed (cfg : Params) (st tab : array) (s key : Z) (n : nat) : Prop :=
  ∀ m, (m < n)%nat →
    probeSlot tab key m ≠ 0 ∧ ¬ duplicates cfg st s (probeSlot tab key m).



(** [q] is a period of the row sequence [rows[0..P)] of [s]:
    [rows[i] = rows[i+q]] for all [0 <= i < P - q]. *)
Definition is_period (cfg : Params) (st : array) (s q : Z) : Prop :=
  1 <= q ∧ ∀ i, 0 <= i < period cfg - q →
             rowOfState st s i = rowOfState st s (i + q).

(** The fundamental period: the least period. *)
Definition fundamental_period (cfg : Params) (st : array) (s q : Z) : Prop :=
  is_period cfg st s q ∧ ∀ q', is_period cfg st s q' → q <= q'.

(** The prefix of length [n] of the row sequence has a border of length
    [b]: its first [b] rows are its last [b] rows. *)
Definition border (st : array) (s n b : Z) : Prop :=
  0 <= b < n ∧ ∀ k, 0 <= k < b → rowOfState st s k = rowOfState st s (n - b + k).

Definition longest_border (st : array) (s n b : Z) : Prop :=
  border st s n b ∧ ∀ b', border st s n b' → b' <= b.

(** The failure table [p] of [aperiodic] is right up to (and without) index
    [i]: [p[j] + 1] is the longest border of the first [j + 1] rows. *)
Definition fail_upto (st : array) (s : Z) (p : array) (i : Z) : Prop :=
  ∀ j, 0 <= j < i → longest_border st s (j + 1) (rd p j + 1).

(** What the [while] loop of [aperiodic] keeps true of [p[i]]. *)
Definition candidate (st : array) (s : Z) (p : array) (i : Z) : Prop :=
  border st s i (rd p i)
  ∧ ∀ b, border st s i b → rowOfState st s b = rowOfState st s i → b <= rd p i.

(** A state at offset 4 with the rows 1, 2, 1 (period 3). *)
Definition rows121 : array := wr (wr (wr ∅ 5 1) 6 2) 7 1.

Definition period3 : Params :=
  {| symmetry := none; allow_row_sym := 1; rule := 4108 (* 010014 *);
     period := 3; rotorWidth := 3; leftStatorWidth := 0;
     rightStatorWidth := 0; maxDeepen := 0; hashing := 1; sparkLevel := 0;
     zeroLotLine := 0 |}.

(** Bit [c] of row [r] of a bit matrix stored at [base], [len] words per
    row: the layout of both [compatBits] and [reachBits]. *)
Definition mbit (bits : array) (base len r c : Z) : bool :=
  Z.testbit (rd bits (base + len * r + Z.shiftr c 5)) (Z.land c 31).

(** The condition [testCompatible] is meant to record for the candidate
    row [i] of the previous phase and the candidate row [j] of [phase]: the
    two rows agree on the stator columns, and after [setupExtensions] one
    of the two lowest bits of [extensions[totalWidth-1]] is set. *)
Definition compatCond (cfg : Params) (tb : Tables) (st : array) (cd : Cand)
    (s phase i j : Z) : bool :=
  let prevPhase := prevPhaseOf cfg phase in
  let prevRow := rd (rows cd) (rd (firstRow cd) prevPhase + i) in
  let row := rd (rows cd) (rd (firstRow cd) phase + j) in
  (statorOf cfg prevRow =? statorOf cfg row)
  && negb (Z.land 3 (rd (setupExtensions cfg tb ∅ prevRow
                           (rowOfState st s prevPhase) row (u32 (-1)))
                        (totalWidth cfg - 1)) =? 0).

(** The calls of [testCompatible] made by [processGroup] for [phase] up to
    and including the call for the pair [(i, j)]: all the pairs of the
    rounds before [i] of the outer loop, then the pairs [(i, 0) .. (i, j)]. *)
Definition compatPairsUpTo (cd : Cand) (phase i j : Z) : list (Z * Z) :=
  (i' ← upto i; j' ← upto (rd (nRows cd) phase); [(i', j')])
  ++ (j' ← upto (j + 1); [(i, j')]).

(** The header [testCompatible] gives the block of [phase]: its first word
    and its number of words per row, from the tables [cp0] at the start of
    the loop for [phase]. *)
Definition compatBase (cfg : Params) (cd : Cand) (cp0 : Compat) (phase : Z) : Z :=
  let prevPhase := prevPhaseOf cfg phase in
  if phase =? 0 then 0
  else rd (firstCompat cp0) prevPhase
       + rd (compatBlockLength cp0) prevPhase * rd (nRows cd) prevPhase.

Definition compatLen (cfg : Params) (cd : Cand) (phase : Z) : Z :=
  Z.shiftr (rd (nRows cd) (prevPhaseOf cfg phase) + 31) 5.

Definition headerOK (cfg : Params) (cd : Cand) (cp0 : Compat) (phase : Z)
    (cp : Compat) : Prop :=
  rd (firstCompat cp) phase = compatBase cfg cd cp0 phase
  ∧ rd (compatBlockLength cp) phase = compatLen cfg cd phase.

Definition prevOK (cfg : Params) (cp0 : Compat) (phase : Z) (cp : Compat) : Prop :=
  phase ≠ 0 →
  rd (firstCompat cp) (prevPhaseOf cfg phase)
  = rd (firstCompat cp0) (prevPhaseOf cfg phase)
  ∧ rd (compatBlockLength cp) (prevPhaseOf cfg phase)
    = rd (compatBlockLength cp0) (prevPhaseOf cfg phase).

(** The call for [(i', j')] comes before the call for [(i, j)]. *)
Definition callBefore (i' j' i j : Z) : Prop := i' < i ∨ (i' = i ∧ j' < j).

(** What holds of the block of [phase] when exactly the calls before
    [(i, j)] have been made: the recorded bits are right, and the bits
    still to come in a row already cleared are zero. *)
Definition compatInv (cfg : Params) (tb : Tables) (st : array) (cd : Cand)
    (s : Z) (cp0 : Compat) (phase i j : Z) (cp : Compat) : Prop :=
  prevOK cfg cp0 phase cp
  ∧ ((0 < i ∨ 0 < j) → headerOK cfg cd cp0 phase cp)
  ∧ ∀ i' j', 0 <= i' < rd (nRows cd) (prevPhaseOf cfg phase) →
             0 <= j' < rd (nRows cd) phase →
      (callBefore i' j' i j →
         mbit (compatBits cp) (compatBase cfg cd cp0 phase) (compatLen cfg cd phase) j' i'
         = compatCond cfg tb st cd s phase i' j')
      ∧ (¬ callBefore i' j' i j → (0 < i ∨ j' < j) →
         mbit (compatBits cp) (compatBase cfg cd cp0 phase) (compatLen cfg cd phase) j' i'
         = false).







(** The outcome of a routine that returned. *)
Definition returned {A} (o : Outcome A) : option A :=
  match o with Done a => Some a | _ => None end.

(** The two boundary columns that [terminate] hands to [terminateCols]. *)
Definition closureCols (cfg : Params) : Z * Z :=
  match symmetry cfg with
  | even => (-1, -1)
  | odd => (-1, 0)
  | none => (totalWidth cfg, -2)
  end.

(** The driver at the start of the search for [life2]. *)
Definition life2Search : Driver :=
  {| params := life2; lastDepth := 0; mach := life2Start |}.

(** [s] is the offset of a state held in the queue: a slot boundary below
    [firstFreeState]. *)
Definition isState (cfg : Params) (q : Queue) (s : Z) : Prop :=
  0 <= s < firstFreeState q ∧ s mod (period cfg + 1) = 0.

(** The parent links of a queue that was never compacted: the free cursor is
    at a slot boundary, the root is its own parent, and the parent of every
    other state is a state with a smaller offset. *)
Definition parentsBelow (cfg : Params) (q : Queue) : Prop :=
  0 < firstFreeState q
  ∧ firstFreeState q mod (period cfg + 1) = 0
  ∧ parentState (statespace q) 0 = 0
  ∧ ∀ s, isState cfg q s → s ≠ 0 →
      isState cfg q (parentState (statespace q) s)
      ∧ parentState (statespace q) s < s.

(** The state reached from [s] along [n] parent links. *)
Definition ancestor (st : array) (n : nat) (s : Z) : Z :=
  Nat.iter n (parentState st) s.


(** A queue at period 2 holding the root and one child of it with the rows
    1 and 2. *)
Definition twoStates : Queue :=
  {| statespace := wr (wr (wr ∅ 3 0) 4 1) 5 2;
     firstUnprocessedState := 3; firstFreeState := 6 |}.


(** The candidate set [cd'] is [cd] with rows appended to the segment of
    [phase], each of them [partialRow] plus some bits below [2 ^ n]. *)
Definition rowsAppended (cd cd' : Cand) (phase partialRow n : Z) : Prop :=
  let first := rd (firstRow cd) phase in
  firstRow cd' = firstRow cd
  ∧ rowIndices cd' = rowIndices cd
  ∧ rd (nRows cd) phase <= rd (nRows cd') phase
  ∧ (∀ p, p ≠ phase → rd (nRows cd') p = rd (nRows cd) p)
  ∧ (∀ k, k < first + rd (nRows cd) phase → rd (rows cd') k = rd (rows cd) k)
  ∧ (∀ k, first + rd (nRows cd) phase <= k < first + rd (nRows cd') phase →
       ∃ low, 0 <= low < 2 ^ n ∧ rd (rows cd') k = partialRow + low)
  ∧ (rd (nRows cd) phase < rd (nRows cd') phase →
     first + rd (nRows cd') phase < NROWS).

(** An arena at period 2 holding the root and, at the offsets 3 and 6, two
    children of it with the same rows 1 and 2. *)
Definition twins : array :=
  wr (wr (wr (wr (wr (wr ∅ 3 0) 4 1) 5 2) 6 0) 7 1) 8 2.

(** The cell count [terminateCols] computes for joining the boundary pair
    [(i, j)] of the column [backCol] with the pair [(j, i)] of [fwdCol]. *)
Definition closureCost (sr : Stator) (backCol fwdCol i j : Z) : Z :=
  BT sr backCol i j + BT sr fwdCol j i - bitCount i - bitCount j.

(** Both halves of the closure through [(i, j)] exist. *)
Definition closes (sr : Stator) (backCol fwdCol i j : Z) : Prop :=
  0 <= BT sr backCol i j ∧ 0 <= BT sr fwdCol j i.



Definition shiftTables : Tables :=
  {| downShifts := makeDownShifts; extTab := ∅ |}.

Definition fullExtensions : array := wr (wr (wr ∅ 0 255) 1 255) 2 255.


(** [life2] with [maxDeepen = 1], and a driver with these parameters, the
    queue [twoStates] and [lastDepth = 2]. *)
Definition life2Deepen1 : Params :=
  {| symmetry := none; allow_row_sym := 1; rule := 4108 (* 010014 *);
     period := 2; rotorWidth := 3; leftStatorWidth := 0;
     rightStatorWidth := 0; maxDeepen := 1; hashing := 1; sparkLevel := 0;
     zeroLotLine := 0 |}.

Definition twoStatesLate : Driver :=
  {| params := life2Deepen1; lastDepth := 2;
     mach := initialMachine twoStates (emptyHash ∅ ∅) |}.



(** The queue [q] is [q0] with its cursors and its states as they were. *)
Definition sameQueue (q0 q : Queue) : Prop :=
  firstFreeState q = firstFreeState q0
  ∧ firstUnprocessedState q = firstUnprocessedState q0
  ∧ ∀ k, k < firstFreeState q0 → rd (statespace q) k = rd (statespace q0) k.

(* ================================================================== *)
(** * Properties *)
(* ================================================================== *)

(** ** Words and arrays *)

Lemma rd_wr_eq a i v : rd (wr a i v) i = v.
Proof. unfold rd, wr. by rewrite lookup_insert_eq. Qed.

Lemma rd_wr_ne a i j v : i ≠ j → rd (wr a i v) j = rd a j.
Proof. intros. unfold rd, wr. by rewrite lookup_insert_ne. Qed.

Lemma rd_wr a i j v : rd (wr a i v) j = if decide (i = j) then v else rd a j.
Proof. case_decide; subst; [apply rd_wr_eq | by apply rd_wr_ne]. Qed.

Lemma rd_empty i : rd ∅ i = 0.
Proof. unfold rd. by rewrite lookup_empty. Qed.


Lemma u32_small z : 0 <= z < 2 ^ 32 → u32 z = z.
Proof. intros. unfold u32. by rewrite Z.mod_small. Qed.

Lemma u32_range z : 0 <= u32 z < 2 ^ 32.
Proof. unfold u32. apply Z.mod_pos_bound. lia. Qed.

Lemma elem_of_upto n x : x ∈ upto n ↔ 0 <= x < n.
Proof. unfold upto. rewrite elem_of_seqZ. lia. Qed.


Lemma foldl_ext {A B} (f g : A → B → A) (a : A) (l : list B) :
  (∀ a x, x ∈ l → f a x = g a x) → foldl f a l = foldl g a l.
Proof.
  revert a. induction l as [|x l IH]; intros a H; simpl; [done|].
  rewrite H by left. apply IH. intros. apply H. by right.
Qed.

(** An invariant carried through a loop. *)
Lemma foldl_inv {A B} (P : A → Prop) (f : A → B → A) (a : A) (l : list B) :
  P a → (∀ a x, x ∈ l → P a → P (f a x)) → P (foldl f a l).
Proof.
  revert a. induction l as [|x l IH]; intros a Ha H; simpl; [done|].
  apply IH; [apply H; [left|done] | intros; apply H; [by right|done]].
Qed.

(** Boolean checks over a finite range decide the statement on the range. *)
Lemma forallb_upto (f : Z → bool) (n : Z) :
  forallb f (upto n) = true ↔ ∀ x, 0 <= x < n → f x = true.
Proof.
  rewrite forallb_forall. split; intros H x Hx.
  - apply H, list_elem_of_In, elem_of_upto, Hx.
  - apply H, elem_of_upto, list_elem_of_In, Hx.
Qed.

(* ================================================================== *)
(** ** [makeDownShifts] *)
(* ================================================================== *)

(** Below [0377] the table holds the projection of the context bitmap. *)
Lemma downShift_projection x :
  0 <= x < 255 → downShift x = context_projection x.
Proof.
  intros Hx.
  assert (H : forallb (fun x => downShift x =? context_projection x) (upto 255)
              = true) by (vm_compute; reflexivity).
  rewrite forallb_upto in H. apply Z.eqb_eq, H, Hx.
Qed.

(** C8 (code side): the loop of [makeDownShifts] stops before [0377], so
    [downShifts[0377]] keeps its initial 0, although the bitmap 0377 holds
    every 3-cell context and its projection is the full bitmap 0377; the
    table is not monotone there either ([0376] maps to [0377]). *)
Theorem downShift_full_bitmap_unset :
  downShift 255 = 0 ∧ context_projection 255 = 255 ∧ downShift 254 = 255.
Proof. vm_compute. done. Qed.

(* ================================================================== *)
(** ** [statorCompare] *)
(* ================================================================== *)

Lemma i32_small z : - 2 ^ 31 <= z < 2 ^ 31 → i32 z = z.
Proof. intros. unfold i32. rewrite Z.mod_small; lia. Qed.

Lemma i32_u32_idemp z : i32 (u32 z) = i32 z.
Proof. unfold i32, u32. by rewrite Zplus_mod_idemp_l. Qed.

Lemma Z_land_le a b : 0 <= a → Z.land a b <= a.
Proof.
  intros Ha.
  assert (H : Z.ldiff a b + Z.land a b = a).
  { rewrite Z.add_nocarry_lor.
    - apply Z.lor_ldiff_and.
    - apply Z.bits_inj'. intros n Hn.
      rewrite Z.land_spec, Z.ldiff_spec, Z.land_spec, Z.bits_0.
      destruct (Z.testbit a n), (Z.testbit b n); done. }
  assert (0 <= Z.ldiff a b) by (apply Z.ldiff_nonneg; by left).
  lia.
Qed.

Lemma statorOf_range cfg r : 0 <= r → 0 <= statorOf cfg r <= r.
Proof.
  intros Hr. unfold statorOf. split.
  - apply Z.land_nonneg. by left.
  - by apply Z_land_le.
Qed.

(** On rows of at most 31 columns the comparison has the sign of the
    intended order. *)
Lemma statorCompare_sign_31 cfg p q :
  0 <= p < 2 ^ 31 → 0 <= q < 2 ^ 31 →
  (statorCompare cfg p q < 0 ↔ stator_lt cfg p q)
  ∧ (statorCompare cfg p q = 0 ↔ p = q).
Proof.
  intros Hp Hq. unfold statorCompare, stator_lt.
  pose proof (statorOf_range cfg p ltac:(lia)).
  pose proof (statorOf_range cfg q ltac:(lia)).
  rewrite !i32_u32_idemp.
  destruct (Z.eqb_spec (statorOf cfg p) (statorOf cfg q)) as [He|Hne]; simpl.
  - rewrite i32_small by lia. split; split; try lia.
  - rewrite i32_small by lia. split; split; try lia.
    intros ->. done.
Qed.

(** C9 (code side): with 32 columns the row whose only live cell is the
    leftmost (stator) column compares as smaller than the empty row,
    although its stator bits are larger; the difference of the two
    [uint32_t] values does not fit an [int]. *)
Theorem statorCompare_wrong_sign_at_width_32 :
  totalWidth width32 = 32
  ∧ statorCompare width32 (2 ^ 31) 0 < 0
  ∧ ¬ stator_lt width32 (2 ^ 31) 0
  ∧ stator_lt width32 0 (2 ^ 31).
Proof.
  split; [done|]. split; [by vm_compute|].
  unfold stator_lt. change (statorOf width32 (2 ^ 31)) with 2147483648.
  change (statorOf width32 0) with 0. lia.
Qed.

(* ================================================================== *)
(** ** [depthFirst] leaves the queue as it found it *)
(* ================================================================== *)

Section DepthFirst.
Variable proc : Machine → Z → Outcome Machine.
Variable cfg : Params.

Lemma depthFirstChildren_frame fuel rec f m r m' :
  depthFirstChildren fuel cfg rec f m = Done (r, m') →
  firstFreeState (queue m') = f.
Proof.
  revert m. induction fuel as [|k IH]; intros m; simpl; [done|].
  destruct (f <? firstFreeState (queue m)).
  - destruct (rec m _) as [[r1 m1]| | |]; simpl; try done.
    destruct (negb (r1 =? 0)).
    + intros [= <- <-]. done.
    + apply IH.
  - intros [= <- <-]. done.
Qed.

Lemma depthFirstWith_S n m s :
  depthFirstWith proc cfg (S n) m s
  = obind (proc m s)
      (fun m1 =>
         depthFirstChildren
           (S (Z.to_nat (firstFreeState (queue m1) - firstFreeState (queue m))))
           cfg (depthFirstWith proc cfg n) (firstFreeState (queue m)) m1).
Proof. reflexivity. Qed.

Lemma depthFirstWith_frame numLevels m s r m' :
  depthFirstWith proc cfg numLevels m s = Done (r, m') →
  firstFreeState (queue m') = firstFreeState (queue m).
Proof.
  destruct numLevels as [|n].
  - simpl. by intros [= <- <-].
  - rewrite depthFirstWith_S.
    destruct (proc m s) as [m1| | |]; try done.
    apply depthFirstChildren_frame.
Qed.

(** The loop over the children has rounds enough: it ends before its
    budget as soon as the callee does. *)
Lemma depthFirstChildren_fuel fuel rec f m :
  0 <= period cfg →
  (∀ m s, rec m s ≠ OutOfFuel) →
  (Z.to_nat (firstFreeState (queue m) - f) < fuel)%nat →
  depthFirstChildren fuel cfg rec f m ≠ OutOfFuel.
Proof.
  intros Hp Hrec. revert m. induction fuel as [|k IH]; intros m Hk; [lia|].
  simpl. destruct (Z.ltb_spec f (firstFreeState (queue m))); [|done].
  specialize (Hrec m (previousState cfg (firstFreeState (queue m)))).
  destruct (rec m _) as [[r1 m1]| | |]; simpl; try done.
  destruct (negb (r1 =? 0)); [done|].
  apply IH. simpl. unfold previousState. lia.
Qed.

Lemma depthFirstWith_fuel numLevels m s :
  0 <= period cfg →
  (∀ m s, proc m s ≠ OutOfFuel) →
  depthFirstWith proc cfg numLevels m s ≠ OutOfFuel.
Proof.
  intros Hp Hproc. revert m s.
  induction numLevels as [|n IH]; intros m s; [done|].
  rewrite depthFirstWith_S.
  specialize (Hproc m s).
  destruct (proc m s) as [m1| | |]; try done.
  apply depthFirstChildren_fuel; [done|apply IH|lia].
Qed.
End DepthFirst.

(** C10: when [depthFirst(s, numLevels)] returns, with either truth value,
    [firstFreeState] has the value it had at entry. *)
Theorem depthFirst_restores_firstFreeState fuel cfg tb ti numLevels m s r m' :
  depthFirst fuel cfg tb ti numLevels m s = Done (r, m') →
  firstFreeState (queue m') = firstFreeState (queue m).
Proof. apply depthFirstWith_frame. Qed.

(** [depthFirst] runs out of budget only when [process] does. *)
Lemma depthFirst_fuel fuel cfg tb ti numLevels m s :
  0 <= period cfg →
  (∀ m s, process fuel cfg tb ti m s ≠ OutOfFuel) →
  depthFirst fuel cfg tb ti numLevels m s ≠ OutOfFuel.
Proof. apply depthFirstWith_fuel. Qed.

Lemma life2_initTermState : initTermState 100 life2 = Some life2Term.
Proof. by vm_compute. Qed.

Lemma life2Deepen1_initTermState :
  initTermState 100 life2Deepen1 = Some life2Term.
Proof. by vm_compute. Qed.

Lemma life2_initialDriver :
  initialDriver life2 (emptyHash ∅ ∅)
  = Some {| params := life2; lastDepth := 0; mach := life2Start |}.
Proof. by vm_compute. Qed.

(** Two levels of depth first search from the root of the Life search: the
    call returns and the queue again ends after the root. *)
Lemma depthFirst_restores_firstFreeState_witness :
  ∃ r m',
    depthFirst 1000 life2 (initTables life2) life2Term 2 life2Start 0
    = Done (r, m')
    ∧ firstFreeState (queue m') = firstFreeState (queue life2Start).
Proof.
  destruct (depthFirst 1000 life2 (initTables life2) life2Term 2 life2Start 0)
    as [[r m']| | |] eqn:E.
  - exists r, m'. split; [reflexivity|].
    exact (depthFirst_restores_firstFreeState _ _ _ _ _ _ _ _ _ E).
  - exfalso. revert E. vm_compute. discriminate.
  - exfalso. revert E. vm_compute. discriminate.
  - exfalso. revert E. vm_compute. discriminate.
Defined.

(* ================================================================== *)
(** ** The duplicate test and the hash probe *)
(* ================================================================== *)

Section HashProbe.
Variable cfg : Params.
Variable st : array.

Lemma isDuplicate_spec s t :
  isDuplicate cfg st s t ≠ 0 ↔ duplicates cfg st s t.
Proof.
  unfold isDuplicate, duplicates.
  destruct (forallb _ _) eqn:E.
  - rewrite forallb_upto in E. split; [|done]. intros _ phase Hp.
    apply E in Hp. apply andb_prop in Hp as [H1 H2].
    apply Z.eqb_eq in H1, H2. done.
  - split; [done|]. intros H. exfalso.
    assert (forallb
              (λ phase : Z,
                 (rowOfState st s phase =? rowOfState st t phase)
                 && (rowOfState st (parentState st s) phase
                     =? rowOfState st (parentState st t) phase))
              (upto (period cfg)) = true) as E'; [|congruence].
    apply forallb_upto. intros phase Hp. destruct (H phase Hp) as [-> ->].
    by rewrite !Z.eqb_refl.
Qed.

Lemma probeKey_S key n :
  probeKey key (S n) = probeKey (key + Z.shiftr key 16) n.
Proof. unfold probeKey. by rewrite Nat.iter_succ_r. Qed.

Lemma probed_S tab s key n :
  probed cfg st tab s key (S n) ↔
  (probeSlot tab key 0 ≠ 0 ∧ ¬ duplicates cfg st s (probeSlot tab key 0))
  ∧ probed cfg st tab s (key + Z.shiftr key 16) n.
Proof.
  unfold probed, probeSlot, probeIndex. split.
  - intros H. split; [apply H; lia|].
    intros m Hm. rewrite <- probeKey_S. apply H. lia.
  - intros [H0 H] [|m] Hm; [done|].
    rewrite probeKey_S. apply H. lia.
Qed.

(** The three ways the probing loop can end. *)
Lemma hash_probe_cases n tab s key :
  (∃ j, (j < n)%nat ∧ probed cfg st tab s key j ∧ probeSlot tab key j = 0
        ∧ hash_probe n cfg st tab s key = (0, wr tab (probeIndex key j) s))
  ∨ (∃ j, (j < n)%nat ∧ probed cfg st tab s key j ∧ probeSlot tab key j ≠ 0
          ∧ duplicates cfg st s (probeSlot tab key j)
          ∧ hash_probe n cfg st tab s key = (1, tab))
  ∨ (probed cfg st tab s key n ∧ hash_probe n cfg st tab s key = (0, tab)).
Proof.
  revert key. induction n as [|n IH]; intros key.
  - right; right. split; [intros m Hm; lia | done].
  - simpl.
    change (rd tab (Z.land key HASHMASK)) with (probeSlot tab key 0).
    destruct (Z.eqb_spec (probeSlot tab key 0) 0) as [E0|N0].
    + left. exists 0%nat. split; [lia|]. split; [intros m Hm; lia|]. done.
    + destruct (decide (isDuplicate cfg st s (probeSlot tab key 0) = 0))
        as [Ed|Nd].
      * rewrite Ed. simpl.
        assert (¬ duplicates cfg st s (probeSlot tab key 0)) as Hnd.
        { rewrite <- isDuplicate_spec. tauto. }
        destruct (IH (key + Z.shiftr key 16))
          as [(j & Hj & Hp & Hs & Hr) | [(j & Hj & Hp & Hs & Hd & Hr) | [Hp Hr]]].
        -- left. exists (S j). split; [lia|].
           split; [by apply probed_S|].
           unfold probeSlot, probeIndex in *. rewrite probeKey_S. done.
        -- right; left. exists (S j). split; [lia|].
           split; [by apply probed_S|].
           unfold probeSlot, probeIndex in *. rewrite probeKey_S. done.
        -- right; right. split; [by apply probed_S | done].
      * apply Z.eqb_neq in Nd as Nd'. rewrite Nd'. simpl.
        right; left. exists 0%nat. split; [lia|].
        split; [intros m Hm; lia|]. split; [done|].
        split; [by apply isDuplicate_spec | done].
Qed.
End HashProbe.

(** C6: [hash(s)] returns nonzero exactly when one of the at most three
    slots it probes holds a duplicate of [s]; when a probed slot is empty,
    [s] is stored there and 0 is returned; and when all three probes hit
    occupied slots without a duplicate, 0 is returned and the table is left
    as it was. *)
Theorem hash_probe_outcomes cfg h st s :
  let key := hashKey0 cfg h st s in
  let tab := hashTable h in
  (fst (hash cfg h st s) ≠ 0 ↔
     ∃ n, (n < 3)%nat ∧ probed cfg st tab s key n ∧ probeSlot tab key n ≠ 0
          ∧ duplicates cfg st s (probeSlot tab key n))
  ∧ (∀ n, (n < 3)%nat → probed cfg st tab s key n → probeSlot tab key n = 0 →
       fst (hash cfg h st s) = 0
       ∧ hashTable (snd (hash cfg h st s)) = wr tab (probeIndex key n) s)
  ∧ (probed cfg st tab s key 3 →
       fst (hash cfg h st s) = 0 ∧ hashTable (snd (hash cfg h st s)) = tab).
Proof.
  intros key tab. unfold hash. fold key. fold tab.
  assert (Hex : ∀ i j, probed cfg st tab s key i →
                  (probeSlot tab key j = 0 ∨ duplicates cfg st s (probeSlot tab key j)) →
                  (i <= j)%nat).
  { intros i j Hi Hj. destruct (le_lt_dec i j) as [|Hlt]; [done|].
    destruct (Hi j Hlt) as [H1 H2]. destruct Hj; done. }
  destruct (hash_probe_cases cfg st 3 tab s key)
    as [(j & Hj & Hp & Hs & Hr) | [(j & Hj & Hp & Hs & Hd & Hr) | [Hp Hr]]];
    rewrite Hr; simpl.
  - split; [|split].
    + split; [done|]. intros (n & Hn & Hpn & Hsn & Hdn). exfalso.
      assert (n <= j)%nat by (apply (Hex n j); auto).
      assert (j <= n)%nat by (apply (Hex j n); auto).
      assert (n = j) by lia. subst. done.
    + intros n Hn Hpn Hsn.
      assert (n <= j)%nat by (apply (Hex n j); auto).
      assert (j <= n)%nat by (apply (Hex j n); auto).
      assert (n = j) by lia. subst. done.
    + intros Hp3. exfalso. assert (3 <= j)%nat by (apply (Hex 3%nat j); auto). lia.
  - split; [|split].
    + split; [|done]. intros _. exists j. done.
    + intros n Hn Hpn Hsn. exfalso.
      assert (n <= j)%nat by (apply (Hex n j); auto).
      assert (j <= n)%nat by (apply (Hex j n); auto).
      assert (n = j) by lia. subst. done.
    + intros Hp3. exfalso. assert (3 <= j)%nat by (apply (Hex 3%nat j); auto). lia.
  - split; [|split].
    + split; [done|]. intros (n & Hn & Hpn & Hsn & Hdn). exfalso.
      assert (3 <= n)%nat by (apply (Hex 3%nat n); auto). lia.
    + intros n Hn Hpn Hsn. exfalso.
      assert (3 <= n)%nat by (apply (Hex 3%nat n); auto). lia.
    + done.
Qed.

(* ================================================================== *)
(** ** [makeNewState] *)
(* ================================================================== *)

(** A loop that writes one row per phase into the slot of [s]. *)
Lemma foldl_setRow_other (f : Z → Z) s l st j :
  (∀ p, p ∈ l → s + 1 + p ≠ j) →
  rd (foldl (fun st p => setRowOfState st s p (f p)) st l) j = rd st j.
Proof.
  revert st. induction l as [|x l IH]; intros st H; simpl; [done|].
  rewrite IH by (intros; apply H; by right).
  unfold setRowOfState. rewrite rd_wr_ne; [done|]. apply H. by left.
Qed.

Lemma foldl_setRow_at (f : Z → Z) s l st p :
  p ∈ l →
  rowOfState (foldl (fun st p => setRowOfState st s p (f p)) st l) s p = f p.
Proof.
  unfold rowOfState. revert st. induction l as [|x l IH]; intros st H; simpl.
  - by apply elem_of_nil in H.
  - destruct (decide (p ∈ l)) as [Hin|Hnin]; [by apply IH|].
    apply elem_of_cons in H as [->|H]; [|done].
    rewrite foldl_setRow_other.
    + unfold setRowOfState. apply rd_wr_eq.
    + intros q Hq ?. assert (q = x) by lia. by subst.
Qed.



(* ================================================================== *)
(** ** [aperiodic]: the failure function and the least period *)
(* ================================================================== *)

Section Aperiodic.
Variable st : array.
Variable s : Z.

Local Abbreviation row := (rowOfState st s).

Lemma border_zero n : 1 <= n → border st s n 0.
Proof. intros. split; [lia|]. intros; lia. Qed.

(** A border of the next prefix is a border of this one, extended. *)
Lemma border_extend i b :
  0 <= b < i →
  border st s (i + 1) (b + 1) ↔ border st s i b ∧ row b = row i.
Proof.
  intros Hb. unfold border. split.
  - intros [_ H]. split; [split; [done|]|].
    + intros k Hk. rewrite (H k) by lia. f_equal. lia.
    + rewrite (H b) by lia. f_equal. lia.
  - intros [[_ H] Hr]. split; [lia|]. intros k Hk.
    destruct (decide (k = b)) as [->|].
    + rewrite Hr. f_equal. lia.
    + rewrite (H k) by lia. f_equal. lia.
Qed.

(** Borders of a border. *)
Lemma border_of_border n c b :
  border st s n c → 0 <= b < c →
  border st s n b ↔ border st s c b.
Proof.
  intros [Hc H] Hb. unfold border. split; intros [_ Hk]; (split; [lia|]).
  - intros k Hkb. rewrite (Hk k) by lia.
    rewrite (H (c - b + k)) by lia. f_equal. lia.
  - intros k Hkb. rewrite (Hk k) by lia.
    rewrite (H (c - b + k)) by lia. f_equal. lia.
Qed.

Lemma aperiodic_while_correct fuel i p :
  1 <= i → fail_upto st s p i → candidate st s p i →
  (Z.to_nat (rd p i) < fuel)%nat →
  ∃ p', aperiodic_while fuel st s i p = Some p' ∧ fail_upto st s p' (i + 1).
Proof.
  intros Hi. revert p. induction fuel as [|f IH]; intros p Hfail [Hb Hmax] Hfuel;
    [lia|].
  simpl. destruct (Z.eqb_spec (row (rd p i)) (row i)) as [Heq|Hne].
  - (* the rows agree: p[i] is final *)
    exists p. split; [done|]. intros j Hj.
    destruct (decide (j = i)) as [->|]; [|apply Hfail; lia].
    split.
    + apply border_extend; [apply Hb|done].
    + intros b' Hb'. destruct (decide (b' = 0)) as [->|].
      * destruct Hb as [? _]. lia.
      * assert (0 <= b' - 1 < i) by (destruct Hb' as [? _]; lia).
        replace b' with (b' - 1 + 1) in Hb' by lia.
        apply border_extend in Hb' as [H1 H2]; [|done].
        specialize (Hmax _ H1 H2). lia.
  - destruct (Z.eqb_spec (rd p i) 0) as [H0|Hn0].
    + (* no border can be extended *)
      exists (wr p i (-1)). split; [done|]. intros j Hj.
      destruct (decide (j = i)) as [->|].
      * rewrite rd_wr_eq. split; [apply border_zero; lia|].
        intros b' Hb'. destruct (decide (b' = 0)) as [->|]; [done|].
        assert (0 <= b' - 1 < i) by (destruct Hb' as [? _]; lia).
        replace b' with (b' - 1 + 1) in Hb' by lia.
        apply border_extend in Hb' as [H1 H2]; [|done].
        specialize (Hmax _ H1 H2).
        assert (b' - 1 = rd p i) as Hbb by lia. rewrite Hbb in H2. done.
      * rewrite rd_wr_ne by done. apply Hfail. lia.
    + (* fall back to the longest border of the border *)
      assert (Hc : 0 < rd p i < i) by (destruct Hb as [? _]; lia).
      destruct (Hfail (rd p i - 1) ltac:(lia)) as [Hlb Hlmax].
      replace (rd p i - 1 + 1) with (rd p i) in Hlb, Hlmax by lia.
      set (c' := rd p (rd p i - 1) + 1) in *.
      assert (Hc' : 0 <= c' < rd p i) by (destruct Hlb as [? _]; lia).
      apply IH.
      * intros j Hj. rewrite rd_wr_ne by lia. apply Hfail. done.
      * unfold candidate. rewrite rd_wr_eq. split.
        -- apply (border_of_border i (rd p i)); done.
        -- intros b Hbi Hr. specialize (Hmax b Hbi Hr).
           assert (b ≠ rd p i) by (intros ->; done).
           apply Hlmax. apply (border_of_border i (rd p i)); [done| |done].
           destruct Hbi as [? _]. lia.
      * rewrite rd_wr_eq. lia.
Qed.

Lemma aperiodic_for_correct cfg :
  1 <= period cfg <= MAXPERIOD →
  ∃ p, aperiodic_for cfg st s (wr ∅ 0 (-1)) = Some p
       ∧ fail_upto st s p (period cfg).
Proof.
  intros Hper. unfold aperiodic_for.
  assert (Hgen : ∀ (n : nat) (p0 : array),
             (Z.of_nat n < MAXPERIOD) →
             fail_upto st s p0 1 →
             ∃ p, foldl (λ op i, p ← op;
                            aperiodic_while (Z.to_nat MAXPERIOD) st s i
                              (wr p i (rd p (i - 1) + 1)))
                    (Some p0) (seqZ 1 (Z.of_nat n)) = Some p
                  ∧ fail_upto st s p (1 + Z.of_nat n)).
  { induction n as [|n IH]; intros p0 Hn H0.
    - exists p0. split; [done|]. by rewrite Z.add_0_r.
    - rewrite seqZ_S, foldl_app.
      destruct (IH p0 ltac:(lia) H0) as (p & -> & Hp).
      set (i := 1 + Z.of_nat n) in *.
      cbn [foldl mbind option_bind].
      destruct (Hp (i - 1) ltac:(lia)) as [Hlb Hlmax].
      replace (i - 1 + 1) with i in Hlb, Hlmax by lia.
      destruct (aperiodic_while_correct (Z.to_nat MAXPERIOD) i
                  (wr p i (rd p (i - 1) + 1))) as (p' & Hp' & Hfail').
      + lia.
      + intros j Hj. rewrite rd_wr_ne by lia. by apply Hp.
      + unfold candidate. rewrite rd_wr_eq. split; [done|].
        intros b Hb _. by apply Hlmax.
      + rewrite rd_wr_eq. destruct Hlb as [? _]. unfold MAXPERIOD in *. lia.
      + exists p'. split; [done|].
        replace (1 + Z.of_nat (S n)) with (i + 1) by lia. done. }
  destruct (Hgen (Z.to_nat (period cfg - 1)) (wr ∅ 0 (-1))) as (p & Hp & Hf).
  - lia.
  - intros j Hj. assert (j = 0) as -> by lia. rewrite rd_wr_eq.
    split; [apply border_zero; lia|]. intros b' [? _]. lia.
  - exists p. rewrite Z2Nat.id in Hp, Hf by lia. split; [done|].
    replace (1 + (period cfg - 1)) with (period cfg) in Hf by lia. done.
Qed.

(** Periods of the whole sequence are its borders, read from the end. *)
Lemma is_period_border cfg q :
  1 <= q <= period cfg →
  is_period cfg st s q ↔ border st s (period cfg) (period cfg - q).
Proof.
  intros Hq. unfold is_period, border. split.
  - intros [_ H]. split; [lia|]. intros k Hk. rewrite (H k) by lia.
    f_equal. lia.
  - intros [_ H]. split; [lia|]. intros i Hi. rewrite (H i) by lia.
    f_equal. lia.
Qed.

Lemma fundamental_period_border cfg q b :
  1 <= period cfg →
  longest_border st s (period cfg) b →
  fundamental_period cfg st s q ↔ q = period cfg - b.
Proof.
  intros Hper [Hb Hmax].
  assert (Hp : is_period cfg st s (period cfg - b)).
  { apply is_period_border; [destruct Hb as [? _]; lia|].
    by replace (period cfg - (period cfg - b)) with b by lia. }
  assert (Hleast : ∀ q', is_period cfg st s q' → period cfg - b <= q').
  { intros q' Hq'. destruct (decide (q' <= period cfg)) as [Hle|]; [|destruct Hb as [? _]; lia].
    assert (1 <= q') by (destruct Hq'; done).
    apply is_period_border in Hq'; [|lia]. apply Hmax in Hq'. lia. }
  split.
  - intros [Hq Hmin]. specialize (Hmin _ Hp). specialize (Hleast _ Hq). lia.
  - intros ->. done.
Qed.
End Aperiodic.

(** C2, as the code has it: for a period from 1 to 19 [aperiodic(s)]
    returns, and for [period >= 2] it returns true exactly when the
    fundamental period [q] of the row sequence is [period] itself or does
    not divide [period]; for [period = 1] it returns true exactly when
    [rows[0]] is nonzero. *)
Theorem aperiodic_least_period cfg st s q :
  1 <= period cfg <= 19 →
  fundamental_period cfg st s q →
  ∃ b, aperiodic cfg st s = Some b
       ∧ (period cfg = 1 → (b = true ↔ rowOfState st s 0 ≠ 0))
       ∧ (2 <= period cfg →
          (b = true ↔ q = period cfg ∨ period cfg mod q ≠ 0)).
Proof.
  intros Hper Hq. unfold aperiodic.
  destruct (Z.eqb_spec (period cfg) 1) as [E1|N1].
  - eexists. split; [done|]. split; [|lia]. intros _.
    rewrite negb_true_iff, Z.eqb_neq. done.
  - destruct (aperiodic_for_correct st s cfg) as (p & -> & Hp);
      [unfold MAXPERIOD; lia|]. simpl.
    eexists. split; [done|]. split; [done|]. intros _.
    destruct (Hp (period cfg - 1) ltac:(lia)) as [Hb Hmax].
    replace (period cfg - 1 + 1) with (period cfg) in Hb, Hmax by lia.
    assert (q = period cfg - (rd p (period cfg - 1) + 1)) as <-.
    { eapply fundamental_period_border; [| |done]; [lia|done]. }
    rewrite orb_true_iff, Z.eqb_eq, negb_true_iff, Z.eqb_neq. done.
Qed.

Lemma rows121_fundamental_period : fundamental_period period3 rows121 4 2.
Proof.
  split.
  - split; [done|]. intros i Hi. assert (i = 0) as -> by (simpl in Hi; lia). done.
  - intros q' [H1 H]. destruct (decide (q' = 1)) as [->|]; [|lia].
    specialize (H 0 ltac:(simpl; lia)). by vm_compute in H.
Qed.

(** On the rows 1, 2, 1 at period 3 the fundamental period is 2 (it does
    not divide 3) and [aperiodic] answers true. *)
Lemma aperiodic_least_period_witness :
  ∃ b, aperiodic period3 rows121 4 = Some b
       ∧ (b = true ↔ 2 = 3 ∨ 3 mod 2 ≠ 0).
Proof.
  destruct (aperiodic_least_period period3 rows121 4 2) as (b & Hb & _ & H);
    [by vm_compute | exact rows121_fundamental_period |].
  exists b. split; [exact Hb|]. apply H. by vm_compute.
Defined.

(** C2 as stated fails: with the rows 1, 2, 1 at period 3 the fundamental
    period is 2, not 3, and still [aperiodic] returns true. *)
Lemma aperiodic_true_below_full_period :
  fundamental_period period3 rows121 4 2
  ∧ aperiodic period3 rows121 4 = Some true
  ∧ 2 ≠ period period3.
Proof.
  split; [exact rows121_fundamental_period|]. split; [by vm_compute|done].
Qed.

(* ================================================================== *)
(** ** Bit matrices stored in 32-bit words *)
(* ================================================================== *)

Lemma shiftr5_land31 c : c = 32 * Z.shiftr c 5 + Z.land c 31.
Proof.
  rewrite Z.shiftr_div_pow2 by lia.
  change 31 with (Z.ones 5). rewrite Z.land_ones by lia.
  change (2 ^ 5) with 32. apply Z.div_mod. lia.
Qed.

Lemma land31_range c : 0 <= Z.land c 31 < 32.
Proof.
  change 31 with (Z.ones 5). rewrite Z.land_ones by lia.
  apply Z.mod_pos_bound. lia.
Qed.

Lemma shiftr5_range c n : 0 <= c < n → 0 <= Z.shiftr c 5 < Z.shiftr (n + 31) 5.
Proof.
  intros Hc. rewrite !Z.shiftr_div_pow2 by lia. change (2 ^ 5) with 32.
  split; [apply Z.div_pos; lia|].
  apply Z.div_lt_upper_bound; [lia|].
  pose proof (Z.mul_div_le c 32 ltac:(lia)).
  pose proof (Z.mod_pos_bound (n + 31) 32 ltac:(lia)).
  pose proof (Z.div_mod (n + 31) 32 ltac:(lia)). lia.
Qed.

Lemma shiftr5_range32 c len : 0 <= c < 32 * len → 0 <= Z.shiftr c 5 < len.
Proof.
  intros Hc. rewrite !Z.shiftr_div_pow2 by lia. change (2 ^ 5) with 32.
  split; [apply Z.div_pos; lia|]. apply Z.div_lt_upper_bound; lia.
Qed.

Lemma columns_fit n c : 0 <= c < n → 0 <= c < 32 * Z.shiftr (n + 31) 5.
Proof.
  intros Hc. pose proof (shiftr5_range c n Hc).
  pose proof (shiftr5_land31 c). pose proof (land31_range c). lia.
Qed.

Lemma shl32_bit k : 0 <= k < 32 → shl32 1 k = 2 ^ k.
Proof.
  intros Hk. unfold shl32. rewrite Z.shiftl_1_l. apply u32_small.
  split; [lia|]. apply Z.pow_lt_mono_r; lia.
Qed.

Lemma testbit_lor_bit w k n :
  0 <= k → 0 <= n →
  Z.testbit (Z.lor w (2 ^ k)) n = Z.testbit w n || bool_decide (n = k).
Proof.
  intros Hk Hn. rewrite Z.lor_spec, Z.pow2_bits_eqb by done.
  f_equal. destruct (Z.eqb_spec k n); case_bool_decide; done || lia.
Qed.

Lemma land_bit_nonzero w k :
  0 <= k → Z.land w (2 ^ k) ≠ 0 ↔ Z.testbit w k = true.
Proof.
  intros Hk. split.
  - intros H. destruct (Z.testbit w k) eqn:E; [done|]. exfalso. apply H.
    apply Z.bits_inj'. intros n Hn.
    rewrite Z.land_spec, Z.pow2_bits_eqb, Z.bits_0 by done.
    destruct (Z.eqb_spec k n) as [<-|]; [by rewrite E | by rewrite andb_false_r].
  - intros E H. assert (Z.testbit (Z.land w (2 ^ k)) k = true) as Ht.
    { rewrite Z.land_spec, E, Z.pow2_bits_true; done. }
    rewrite H, Z.bits_0 in Ht. done.
Qed.

Lemma land_bit_range w k : 0 <= k → 0 <= Z.land w (2 ^ k) <= 2 ^ k.
Proof.
  intros Hk. split.
  - apply Z.land_nonneg. right. lia.
  - rewrite Z.land_comm. apply Z_land_le. lia.
Qed.

(** The [int] or [long] returned by a bit test is nonzero exactly when the
    bit is set. *)
Lemma bit_test_nonzero w c :
  Z.land w (shl32 1 (Z.land c 31)) ≠ 0 ↔ Z.testbit w (Z.land c 31) = true.
Proof.
  pose proof (land31_range c). rewrite shl32_bit by done.
  apply land_bit_nonzero. lia.
Qed.

Lemma bit_test_i32_nonzero w c :
  i32 (Z.land w (shl32 1 (Z.land c 31))) ≠ 0 ↔ Z.testbit w (Z.land c 31) = true.
Proof.
  rewrite <- bit_test_nonzero.
  pose proof (land31_range c) as Hr. rewrite shl32_bit by done.
  pose proof (land_bit_range w (Z.land c 31) ltac:(lia)) as Hb.
  assert (2 ^ Z.land c 31 <= 2 ^ 31) by (apply Z.pow_le_mono_r; lia).
  unfold i32.
  destruct (decide (Z.land w (2 ^ Z.land c 31) < 2 ^ 31)).
  - rewrite Z.mod_small by lia. lia.
  - assert (Z.land w (2 ^ Z.land c 31) = 2 ^ 31) as -> by lia. done.
Qed.

Section BitMatrix.
Variables base len : Z.
Hypothesis len_nonneg : 0 <= len.

Lemma word_index_inj r c r' c' :
  0 <= c < 32 * len → 0 <= c' < 32 * len →
  base + len * r + Z.shiftr c 5 = base + len * r' + Z.shiftr c' 5 →
  r = r' ∧ Z.shiftr c 5 = Z.shiftr c' 5.
Proof.
  intros Hc Hc' E.
  pose proof (shiftr5_range32 c len Hc). pose proof (shiftr5_range32 c' len Hc').
  assert (r = r') by nia. subst. split; [done|lia].
Qed.

(** Setting one bit changes that bit only. *)
Lemma mbit_set bits r c r' c' :
  0 <= c < 32 * len → 0 <= c' < 32 * len →
  let w := base + len * r + Z.shiftr c 5 in
  mbit (wr bits w (Z.lor (rd bits w) (shl32 1 (Z.land c 31)))) base len r' c'
  = mbit bits base len r' c' || bool_decide (r' = r ∧ c' = c).
Proof.
  intros Hc Hc' w. unfold mbit. rewrite rd_wr.
  pose proof (land31_range c). pose proof (land31_range c').
  case_decide as E.
  - apply word_index_inj in E as [-> E]; [|done..].
    rewrite <- E. fold w. rewrite shl32_bit, testbit_lor_bit by lia.
    f_equal. apply bool_decide_ext.
    pose proof (shiftr5_land31 c). pose proof (shiftr5_land31 c'). lia.
  - rewrite bool_decide_eq_false_2; [by rewrite orb_false_r|].
    intros [-> ->]. done.
Qed.

(** Clearing the words of one row clears that row only. *)
Lemma mbit_clear bits r r' c' :
  0 <= c' < 32 * len →
  mbit (foldl (fun bits i => wr bits (base + len * r + i) 0) bits (upto len))
       base len r' c'
  = mbit bits base len r' c' && negb (bool_decide (r' = r)).
Proof.
  intros Hc'. unfold mbit.
  pose proof (shiftr5_range32 c' len Hc') as Hw.
  case_bool_decide as E; simpl.
  - subst. rewrite andb_false_r.
    assert (H : ∀ l bits0 i, i ∈ l →
              rd (foldl (fun bits i => wr bits (base + len * r + i) 0) bits0 l)
                 (base + len * r + i) = 0).
    { induction l as [|x l IH]; intros bits0 i Hi; [by apply elem_of_nil in Hi|].
      simpl. destruct (decide (i ∈ l)) as [|Hn]; [by apply IH|].
      apply elem_of_cons in Hi as [->|]; [|done].
      assert (G : ∀ l' b0, x ∉ l' →
                rd (foldl (fun bits i => wr bits (base + len * r + i) 0) b0 l')
                   (base + len * r + x) = rd b0 (base + len * r + x)).
      { induction l' as [|y l' IH']; intros b0 Hy; [done|]. simpl.
        rewrite IH' by (intros ?; apply Hy; by right).
        apply rd_wr_ne. intros ?. apply Hy. apply elem_of_cons. left. lia. }
      rewrite G by done. apply rd_wr_eq. }
    rewrite H; [apply Z.bits_0 | by apply elem_of_upto].
  - rewrite andb_true_r. f_equal.
    apply (foldl_inv (fun b => rd b (base + len * r' + Z.shiftr c' 5)
                               = rd bits (base + len * r' + Z.shiftr c' 5)));
      [done|].
    intros b x Hx%elem_of_upto Hb. rewrite rd_wr_ne; [done|]. nia.
Qed.
End BitMatrix.

(* ================================================================== *)
(** ** [testCompatible] and [compatible] *)
(* ================================================================== *)

(** The cells [extensions[0 .. totalWidth)] after [setupExtensions] do not
    depend on what the scratch array held before. *)
Lemma setupExtensions_indep cfg tb e e' a b c m k :
  0 <= k < totalWidth cfg →
  rd (setupExtensions cfg tb e a b c m) k
  = rd (setupExtensions cfg tb e' a b c m) k.
Proof.
  intros Hk. unfold setupExtensions.
  set (g := λ '(extensions, x, a, b, c) (i : Z),
              (wr extensions i (maskedExtension tb x a b c m),
               maskedExtension tb x a b c m, a ≫ 1, b ≫ 1, c ≫ 1)).
  assert (H : ∀ l e e' x a b c,
            ∃ E E' X A B C,
              foldl g (e, x, a, b, c) l = (E, X, A, B, C)
              ∧ foldl g (e', x, a, b, c) l = (E', X, A, B, C)
              ∧ ∀ k, k ∈ l ∨ rd e k = rd e' k → rd E k = rd E' k).
  { induction l as [|i l IH]; intros e1 e1' x1 a1 b1 c1.
    - exists e1, e1', x1, a1, b1, c1. split; [done|]. split; [done|].
      intros k' [H|H]; [by apply elem_of_nil in H | done].
    - simpl.
      destruct (IH (wr e1 i (maskedExtension tb x1 a1 b1 c1 m))
                   (wr e1' i (maskedExtension tb x1 a1 b1 c1 m))
                   (maskedExtension tb x1 a1 b1 c1 m) (a1 ≫ 1) (b1 ≫ 1) (c1 ≫ 1))
        as (E & E' & X & A & B & C & H1 & H2 & H3).
      exists E, E', X, A, B, C. split; [done|]. split; [done|].
      intros k' Hk'. apply H3. rewrite !rd_wr.
      case_decide; [by right|]. destruct Hk' as [Hk'|Hk']; [|by right].
      apply elem_of_cons in Hk' as [->|]; [done | by left]. }
  destruct (H (upto (totalWidth cfg)) e e' (extensionSeed cfg tb a b c m) a b c)
    as (E & E' & X & A & B & C & -> & -> & H3).
  apply H3. left. by apply elem_of_upto.
Qed.

Lemma foldl_compatCall_None cfg tb st cd s phase l :
  foldl (compatCall cfg tb st cd s phase) None l = None.
Proof. induction l as [|x l IH]; [done|]. simpl. apply IH. Qed.

Lemma foldl_bind {A B C} (f : A → C → A) (g : B → list C) (a : A) (l : list B) :
  foldl f a (l ≫= g) = foldl (fun a x => foldl f a (g x)) a l.
Proof.
  revert a. induction l as [|x l IH]; intros a; [done|].
  rewrite bind_cons, foldl_app. apply IH.
Qed.

Section TestCompatible.
Variable cfg : Params.
Variable tb : Tables.
Variable st : array.
Variable cd : Cand.
Variable s phase : Z.
Variable cp0 : Compat.
Hypothesis width_pos : 1 <= totalWidth cfg.
Hypothesis phase_nonneg : 0 <= phase.

Local Abbreviation prev := (prevPhaseOf cfg phase).
Local Abbreviation np := (rd (nRows cd) (prevPhaseOf cfg phase)).
Local Abbreviation n := (rd (nRows cd) phase).
Local Abbreviation fp := (rd (firstRow cd) (prevPhaseOf cfg phase)).
Local Abbreviation f := (rd (firstRow cd) phase).
Local Abbreviation F := (compatBase cfg cd cp0 phase).
Local Abbreviation L := (compatLen cfg cd phase).

Lemma compatLen_nonneg : 0 <= np → 0 <= L.
Proof. intros. unfold compatLen. apply Z.shiftr_nonneg. lia. Qed.

Lemma prevPhase_ne : phase ≠ 0 → prev ≠ phase.
Proof.
  intros. unfold prevPhaseOf. destruct (Z.ltb_spec (phase - 1) 0); lia.
Qed.

(** Reading a bit back. *)
Lemma compatible_mbit cp i j :
  headerOK cfg cd cp0 phase cp →
  compatible cfg cd cp phase (fp + i) (f + j) ≠ 0
  ↔ mbit (compatBits cp) F L j i = true.
Proof.
  intros [HF HL]. unfold compatible, compatRow, mbit.
  rewrite HF, HL, bit_test_i32_nonzero.
  replace (f + j - f) with j by lia. replace (fp + i - fp) with i by lia.
  done.
Qed.

(** The header written when [rowIndex == firstRow[phase]]. *)
Lemma compatHeader_ok cp cp' :
  prevOK cfg cp0 phase cp →
  compatHeader cfg cd cp phase = Some cp' →
  prevOK cfg cp0 phase cp' ∧ headerOK cfg cd cp0 phase cp'
  ∧ compatBits cp' = compatBits cp.
Proof.
  intros Hprev. unfold compatHeader.
  destruct (_ >? NCOMPAT); [done|]. intros [= <-]. simpl.
  unfold prevOK, headerOK, compatBase, compatLen in *. simpl.
  destruct (Z.eqb_spec phase 0) as [->|Hne].
  - rewrite !rd_wr_eq. split; [done|]. done.
  - destruct (Hprev Hne) as [H1 H2]. pose proof (prevPhase_ne Hne).
    rewrite !rd_wr_eq, !rd_wr_ne by done. rewrite H1, H2. done.
Qed.

(** One call of [testCompatible]. *)
Lemma testCompatible_step cp ext i j cp' ext' :
  0 <= i < np → 0 <= j < n →
  prevOK cfg cp0 phase cp →
  (j ≠ 0 → headerOK cfg cd cp0 phase cp) →
  testCompatible cfg tb st cd cp ext phase (fp + i) (f + j) s = Some (cp', ext') →
  prevOK cfg cp0 phase cp' ∧ headerOK cfg cd cp0 phase cp'
  ∧ ∀ i' j', 0 <= i' < np →
      mbit (compatBits cp') F L j' i'
      = (mbit (compatBits cp) F L j' i' && negb (bool_decide (i = 0 ∧ j' = j)))
        || (compatCond cfg tb st cd s phase i j && bool_decide (j' = j ∧ i' = i)).
Proof.
  intros Hi Hj Hprev Hhdr. unfold testCompatible.
  assert (HL : 0 <= L) by (apply compatLen_nonneg; lia).
  (* the header *)
  destruct (if f + j =? f then compatHeader cfg cd cp phase else Some cp)
    as [cp1|] eqn:E1; [|done].
  assert (H1 : prevOK cfg cp0 phase cp1 ∧ headerOK cfg cd cp0 phase cp1
               ∧ compatBits cp1 = compatBits cp).
  { destruct (Z.eqb_spec (f + j) f) as [E|E].
    - by apply compatHeader_ok.
    - injection E1 as <-. split; [done|]. split; [|done]. apply Hhdr. lia. }
  destruct H1 as (Hprev1 & [HF1 HL1] & Hbits1).
  cbn [mbind option_bind]. cbv zeta.
  unfold compatRow. rewrite HF1, HL1, Hbits1.
  replace (f + j - f) with j by lia. replace (fp + i - fp) with i by lia.
  (* the cleared row *)
  set (bits1 := if fp + i =? fp then _ else compatBits cp).
  assert (Hclear : ∀ i' j', 0 <= i' < np →
            mbit bits1 F L j' i'
            = mbit (compatBits cp) F L j' i' && negb (bool_decide (i = 0 ∧ j' = j))).
  { intros i' j' Hi'. unfold bits1.
    destruct (Z.eqb_spec (fp + i) fp) as [E|E].
    - rewrite mbit_clear; [|first [done | by apply columns_fit]..].
      f_equal. f_equal. apply bool_decide_ext. lia.
    - rewrite bool_decide_eq_false_2 by lia. by rewrite andb_true_r. }
  clearbody bits1.
  (* the two tests *)
  unfold compatCond.
  rewrite (setupExtensions_indep cfg tb ext ∅) by lia.
  destruct (statorOf cfg (rd (rows cd) (fp + i)) =? statorOf cfg (rd (rows cd) (f + j)));
    simpl.
  - destruct (Z.land 3 _ =? 0); simpl.
    + intros [= <- <-]. simpl. split; [done|]. split; [done|].
      intros i' j' Hi'. rewrite Hclear by done. by rewrite orb_false_r.
    + intros [= <- <-]. simpl. split; [done|]. split; [done|].
      intros i' j' Hi'.
      rewrite mbit_set; [|first [done | apply columns_fit; lia]..].
      rewrite Hclear by done. done.
  - intros [= <- <-]. simpl. split; [done|]. split; [done|].
    intros i' j' Hi'. rewrite Hclear by done. by rewrite orb_false_r.
Qed.

Lemma compatInv_start : compatInv cfg tb st cd s cp0 phase 0 0 cp0.
Proof.
  split; [done|]. split; [lia|]. intros i' j' Hi' Hj'. unfold callBefore.
  split; lia.
Qed.

Lemma compatInv_step cp ext i j cp' ext' :
  0 <= i < np → 0 <= j < n →
  compatInv cfg tb st cd s cp0 phase i j cp →
  testCompatible cfg tb st cd cp ext phase (fp + i) (f + j) s = Some (cp', ext') →
  compatInv cfg tb st cd s cp0 phase i (j + 1) cp'.
Proof.
  intros Hi Hj (Hprev & Hhdr & Hbits) Hcall.
  destruct (testCompatible_step cp ext i j cp' ext' Hi Hj Hprev
              ltac:(intros; apply Hhdr; lia) Hcall) as (Hprev' & Hhdr' & Hnew).
  split; [done|]. split; [done|]. intros i' j' Hi' Hj'.
  rewrite Hnew by done. destruct (Hbits i' j' Hi' Hj') as [Hold1 Hold2].
  unfold callBefore in *.
  split.
  - intros Hb. destruct (decide (i' = i ∧ j' = j)) as [[-> ->]|Hne].
    + rewrite (bool_decide_eq_true_2 (j = j ∧ i = i)) by done.
      rewrite andb_true_r.
      destruct (decide (i = 0)) as [->|].
      * rewrite bool_decide_eq_true_2 by done. by rewrite andb_false_r.
      * rewrite Hold2 by lia. done.
    + rewrite (bool_decide_eq_false_2 (j' = j ∧ i' = i)) by lia.
      rewrite andb_false_r, orb_false_r.
      rewrite bool_decide_eq_false_2 by lia. rewrite andb_true_r.
      apply Hold1. lia.
  - intros Hnb Hrow.
    rewrite (bool_decide_eq_false_2 (j' = j ∧ i' = i)) by lia.
    rewrite andb_false_r, orb_false_r.
    destruct (decide (i = 0 ∧ j' = j)) as [|Hne].
    + rewrite bool_decide_eq_true_2 by done. by rewrite andb_false_r.
    + rewrite Hold2 by lia. done.
Qed.

Lemma compatInv_row_end cp i :
  0 <= i → 0 < n →
  compatInv cfg tb st cd s cp0 phase i n cp →
  compatInv cfg tb st cd s cp0 phase (i + 1) 0 cp.
Proof.
  intros Hi Hn (Hprev & Hhdr & Hbits).
  split; [done|]. split; [intros; apply Hhdr; lia|].
  intros i' j' Hi' Hj'. destruct (Hbits i' j' Hi' Hj') as [Hold1 Hold2].
  unfold callBefore in *. split.
  - intros. apply Hold1. lia.
  - intros. apply Hold2; lia.
Qed.

(** The inner loop, for the first [k] rows of [phase]. *)
Lemma compatInv_inner i (k : nat) cp ext cp' ext' :
  0 <= i < np → Z.of_nat k <= n →
  compatInv cfg tb st cd s cp0 phase i 0 cp →
  foldl (compatCall cfg tb st cd s phase) (Some (cp, ext))
        (j' ← seqZ 0 (Z.of_nat k); [(i, j')]) = Some (cp', ext') →
  compatInv cfg tb st cd s cp0 phase i (Z.of_nat k) cp'.
Proof.
  intros Hi. revert cp' ext'. induction k as [|k IH]; intros cp' ext' Hk Hinv.
  - simpl. by intros [= <- <-].
  - rewrite seqZ_S, bind_app, foldl_app. simpl.
    destruct (foldl _ _ _) as [[cp1 ext1]|] eqn:E; [|done].
    simpl. intros Hcall.
    replace (Z.of_nat (S k)) with (Z.of_nat k + 1) by lia.
    eapply compatInv_step; [done| |by eapply IH; [lia|..]|exact Hcall]. lia.
Qed.

(** The outer loop, for the first [r] rows of the previous phase. *)
Lemma compatInv_outer (r : nat) ext0 cp' ext' :
  Z.of_nat r <= np → 0 < n →
  foldl (compatCall cfg tb st cd s phase) (Some (cp0, ext0))
        (i' ← seqZ 0 (Z.of_nat r); j' ← upto n; [(i', j')]) = Some (cp', ext') →
  compatInv cfg tb st cd s cp0 phase (Z.of_nat r) 0 cp'.
Proof.
  intros Hr Hn. revert cp' ext'. induction r as [|r IH]; intros cp' ext'.
  - simpl. intros [= <- <-]. apply compatInv_start.
  - rewrite seqZ_S, bind_app, foldl_app, bind_singleton.
    destruct (foldl _ _ (seqZ 0 (Z.of_nat r) ≫= _)) as [[cp1 ext1]|] eqn:E;
      [|by rewrite foldl_compatCall_None].
    intros Hrow. rewrite Z.add_0_l in Hrow.
    replace (Z.of_nat (S r)) with (Z.of_nat r + 1) by lia.
    apply compatInv_row_end; [lia|done|].
    replace n with (Z.of_nat (Z.to_nat n)) in Hrow |- * by lia.
    unfold upto in Hrow.
    eapply compatInv_inner; [lia|lia| |exact Hrow].
    eapply IH; [lia|done].
Qed.


(** The calls up to [(i, j)] are the first calls of the full loop. *)
Lemma compatPairs_prefix i j :
  0 <= i < np → 0 <= j < n →
  ∃ rest, compatPairs cfg cd phase = compatPairsUpTo cd phase i j ++ rest.
Proof.
  intros Hi Hj. unfold compatPairs, compatPairsUpTo, upto.
  assert (Hsplit : ∀ k m, 0 <= k < m →
            seqZ 0 m = seqZ 0 k ++ k :: seqZ (k + 1) (m - k - 1)).
  { intros k m Hk. replace m with (k + (m - k)) at 1 by lia.
    rewrite seqZ_app by lia. f_equal. rewrite seqZ_cons by lia.
    rewrite Z.add_0_l. f_equal. }
  rewrite (Hsplit i np) by done. rewrite bind_app, bind_cons.
  rewrite (Hsplit j n) by done.
  replace (seqZ 0 (j + 1)) with (seqZ 0 j ++ [j]).
  - rewrite !bind_app, bind_cons, bind_singleton. eexists.
    rewrite <- !app_assoc. simpl. reflexivity.
  - replace (j + 1) with (j + 1 + 0) at 1 by lia.
    rewrite (Hsplit j (j + 1 + 0)) by lia.
    replace (j + 1 + 0 - j - 1) with 0 by lia. done.
Qed.

End TestCompatible.


(* ================================================================== *)
(** ** [testReachable] and [reachable] *)
(* ================================================================== *)





Section Reachable.
Variable cfg : Params.
Variable cd : Cand.
Variable cp : Compat.

Local Abbreviation R := (REACHLENGTH cd).
Local Abbreviation n0 := (rd (nRows cd) 0).

Hypothesis n0_nonneg : 0 <= n0.


(** *** The block of the last phase *)




(** *** The blocks of the remaining phases *)



Hypothesis period_pos : 1 <= period cfg.
Hypothesis nRows_nonneg : ∀ q, 0 <= q < period cfg → 0 <= rd (nRows cd) q.





End Reachable.


(** The loop of [processGroup] for one phase, run to its end: every bit of
    the block is right. *)
Theorem compatPhase_complete cfg tb st cd s phase cp0 ext0 cp ext i j :
  1 <= totalWidth cfg → 0 <= phase →
  foldl (compatCall cfg tb st cd s phase) (Some (cp0, ext0))
        (compatPairs cfg cd phase) = Some (cp, ext) →
  0 <= i < rd (nRows cd) (prevPhaseOf cfg phase) →
  0 <= j < rd (nRows cd) phase →
  compatible cfg cd cp phase
    (rd (firstRow cd) (prevPhaseOf cfg phase) + i) (rd (firstRow cd) phase + j) ≠ 0
  ↔ compatCond cfg tb st cd s phase i j = true.
Proof.
  intros HW Hph Hrun Hi Hj. unfold compatPairs, upto in Hrun.
  set (np := rd (nRows cd) (prevPhaseOf cfg phase)) in *.
  replace np with (Z.of_nat (Z.to_nat np)) in Hrun by lia.
  eapply compatInv_outer in Hrun; [|done|done|lia|lia].
  destruct Hrun as (_ & Hhdr & Hbits).
  rewrite (compatible_mbit cfg cd phase cp0) by (apply Hhdr; lia).
  destruct (Hbits i j Hi Hj) as [H1 _]. rewrite H1; [done|].
  unfold callBefore. lia.
Qed.



(** What the double loop of [terminateCols] keeps true of its three
    variables. *)
Lemma terminateCols_found sr backCol fwdCol :
  let r := terminateCols sr backCol fwdCol in
  bestTerm r.2 = bestTerm sr ∧ predTerm r.2 = predTerm sr
  ∧ (r.1 = 0 ∨ r.1 = 1)
  ∧ (r.1 ≠ 0 →
     0 <= backBestTerm r.2 < 32 ∧ 0 <= fwdBestTerm r.2 < 32
     ∧ 0 <= BT sr backCol (backBestTerm r.2) (fwdBestTerm r.2)
     ∧ 0 <= BT sr fwdCol (fwdBestTerm r.2) (backBestTerm r.2)).
Proof.
  unfold terminateCols.
  set (inner := fun (acc : Z * Z * Z) (i : Z) => foldl _ acc (upto 32)).
  set (Inv := fun acc : Z * Z * Z =>
    let '(bestCount, back, fwd) := acc in
    bestCount < 32767 →
    0 <= back < 32 ∧ 0 <= fwd < 32
    ∧ 0 <= BT sr backCol back fwd ∧ 0 <= BT sr fwdCol fwd back).
  assert (Inv (foldl inner (32767, backBestTerm sr, fwdBestTerm sr) (upto 32)))
    as HInv.
  { apply foldl_inv; [simpl; lia|].
    intros acc i Hi Hacc. unfold inner. apply foldl_inv; [done|].
    intros [[bc bk] fw] j Hj H. apply elem_of_upto in Hi, Hj.
    destruct (BT sr backCol i j <? 0) eqn:E1; simpl; [done|].
    destruct (BT sr fwdCol j i <? 0) eqn:E2; simpl; [done|].
    destruct (_ <? bc) eqn:E3; [|done].
    simpl. intros _. lia. }
  destruct (foldl inner _ _) as [[bc bk] fw]. simpl.
  split; [done|]. split; [done|].
  destruct (bc <? 32767) eqn:E; simpl.
  - split; [by right|]. intros _. apply HInv. lia.
  - split; [by left|]. done.
Qed.

(** When [terminate] returns nonzero, the pair it records has a
    non-negative cell count in both boundary columns. *)
Lemma terminate_found cfg ti st sr s :
  let r := terminate cfg ti st sr s in
  r.1 ≠ 0 →
  0 <= BT r.2 (closureCols cfg).1 (backBestTerm r.2) (fwdBestTerm r.2)
  ∧ 0 <= BT r.2 (closureCols cfg).2 (fwdBestTerm r.2) (backBestTerm r.2).
Proof.
  cbv zeta. unfold terminate, closureCols.
  destruct (terminateLoop _ _ _ _ _ _ _) as [[bt pt]|];
    [|intros H; by destruct H].
  destruct (symmetry cfg); cbn [fst snd]; intros Hne;
    match goal with
    | |- context [terminateCols ?sr0 ?b ?f] =>
        destruct (terminateCols_found sr0 b f) as (Hb & _ & _ & H)
    end;
    unfold BT; rewrite Hb; apply H, Hne.
Qed.

(** C1 (amended): after [terminal] left [row_symmetry = none], [success]
    returns without output exactly when [terminate] returns 0, so the early
    return is taken whenever the column-wise search fails; and when
    [terminate] returns nonzero, the boundary pair it records has a
    non-negative cell count in both boundary columns of the table, that is,
    a finite-cost closure was found before anything is printed. *)
Theorem success_returns_iff_terminate_fails fuel cfg ti st rs sr s :
  row_symmetry rs = none →
  let r := terminate cfg ti st sr s in
  (r.1 = 0 ↔ success fuel cfg ti st rs sr s = Done r.2)
  ∧ (r.1 = 0 ↔ returned (success fuel cfg ti st rs sr s) ≠ None)
  ∧ (r.1 ≠ 0 →
     0 <= BT r.2 (closureCols cfg).1 (backBestTerm r.2) (fwdBestTerm r.2)
     ∧ 0 <= BT r.2 (closureCols cfg).2 (fwdBestTerm r.2) (backBestTerm r.2)).
Proof.
  intros Hrs r. subst r. unfold success. rewrite Hrs.
  change (sym_type_eqb none none) with true. cbv iota.
  destruct (terminate cfg ti st sr s) as [t sr'] eqn:Er. cbn [fst snd].
  destruct (Z.eqb_spec t 0) as [->|Hne].
  - split; [split; reflexivity|]. split; [|intros H; by destruct H].
    split; [intros _; cbn [returned]; discriminate | reflexivity].
  - set (o := ofFuel (successChain fuel st (row_sym_phase_offset rs) s)).
    split; [|split].
    + split; [intros H; by destruct Hne|].
      destruct o; cbn [obind]; discriminate.
    + split; [intros H; by destruct Hne|].
      destruct o; cbn [obind returned]; intros H; by destruct H.
    + intros _. pose proof (terminate_found cfg ti st sr s) as H.
      rewrite Er in H. apply H, Hne.
Qed.

(** The early return of [success] at the root of the Life search, where
    [row_symmetry] is [none]. *)
Lemma success_returns_iff_terminate_fails_witness :
  let st := statespace (queue life2Start) in
  let rs := {| row_symmetry := none; row_sym_phase_offset := 0 |} in
  let sr := stator life2Start in
  let r := terminate life2 life2Term st sr 0 in
  (r.1 = 0 ↔ success 1000 life2 life2Term st rs sr 0 = Done r.2)
  ∧ (r.1 = 0 ↔ returned (success 1000 life2 life2Term st rs sr 0) ≠ None)
  ∧ (r.1 ≠ 0 →
     0 <= BT r.2 (closureCols life2).1 (backBestTerm r.2) (fwdBestTerm r.2)
     ∧ 0 <= BT r.2 (closureCols life2).2 (fwdBestTerm r.2) (backBestTerm r.2)).
Proof.
  exact (success_returns_iff_terminate_fails 1000 life2 life2Term
           (statespace (queue life2Start))
           {| row_symmetry := none; row_sym_phase_offset := 0 |}
           (stator life2Start) 0 eq_refl).
Defined.

(** C1 (counterexample): in the search for period 2 oscillators of Life on
    three columns, the state that [breadthFirst] processes in its 18th round
    (rows 1 and 5 below a parent with rows 3 and 3) is one on which
    [terminal] returns 1 with [row_symmetry = none] and which is
    [nontrivial], so [success] is called; yet [terminate] returns 0 and
    [success] takes its early return. *)
Lemma terminal_without_terminate :
  match returned (breadthFirst 17 1000 (initTables life2) life2Term life2Search) with
  | Some (d, _) =>
      let m := mach d in
      let st := statespace (queue m) in
      let s := firstUnprocessedState (queue m) in
      s = 51 ∧ s < firstFreeState (queue m)
      ∧ parentState st s = 24
      ∧ terminal life2 life2Term st (rowSym m) s
        = (1, {| row_symmetry := none; row_sym_phase_offset := 1 |})
      ∧ nontrivial 1000 life2 st s = Some true
      ∧ (terminate life2 life2Term st (stator m) s).1 = 0
      ∧ match success 1000 life2 life2Term st
                {| row_symmetry := none; row_sym_phase_offset := 1 |}
                (stator m) s with
        | Done _ => True
        | _ => False
        end
  | None => False
  end.
Proof. vm_compute. repeat split. Qed.


(* ================================================================== *)
(** ** The parent links of the queue *)
(* ================================================================== *)
















(** [makeInitialStates] returns for every period the arena can hold, with
    the root alone in the queue: its own parent, all rows zero, unprocessed,
    and the parent links (trivially) in order. *)
Theorem makeInitialStates_root cfg :
  0 <= period cfg < 2 ^ 31 - 2 →
  ∃ q, makeInitialStates cfg = Some q
       ∧ firstUnprocessedState q = 0
       ∧ firstFreeState q = period cfg + 1
       ∧ parentState (statespace q) 0 = 0
       ∧ (∀ phase, 0 <= phase < period cfg → rowOfState (statespace q) 0 phase = 0)
       ∧ parentsBelow cfg q.
Proof.
  intros Hper. unfold makeInitialStates, nextState, firstState.
  destruct (Z.geb_spec (0 + period cfg + 1) lastState) as [Hge|_].
  { unfold lastState, STATE_SPACE_SIZE in Hge. lia. }
  cbn [mbind option_bind]. eexists. split; [done|].
  unfold parentsBelow, isState.
  cbn [firstFreeState statespace firstUnprocessedState].
  assert (Hroot : parentState
            (foldl (λ st phase, setRowOfState st 0 phase 0)
                   (setParentState ∅ 0 0) (upto (period cfg))) 0 = 0).
  { unfold parentState.
    rewrite (foldl_setRow_other (fun _ => 0)) by (intros p Hp%elem_of_upto; lia).
    unfold setParentState. by rewrite rd_wr_eq. }
  split; [done|]. split; [lia|]. split; [done|]. split.
  - intros phase Hp. apply (foldl_setRow_at (fun _ => 0)). by apply elem_of_upto.
  - split; [lia|]. split; [by rewrite Z.mod_same by lia|]. split; [done|].
    intros s [Hs Hm] Hne.
    rewrite Z.mod_small in Hm by lia. done.
Qed.

Lemma ancestor_S st n s :
  ancestor st (S n) s = ancestor st n (parentState st s).
Proof. unfold ancestor. by rewrite Nat.iter_succ_r. Qed.

(** In a queue whose parent links are in order [depth(s)] returns, after at
    most [s + 1] tests of its loop, the number of parent links from [s] to
    the root. *)
Theorem depth_counts_links cfg q s :
  parentsBelow cfg q → isState cfg q s →
  ∃ n, depth (S (Z.to_nat s)) (statespace q) s 0 = Done (Z.of_nat n)
       ∧ ancestor (statespace q) n s = 0
       ∧ ∀ m, (m < n)%nat → ancestor (statespace q) m s ≠ 0.
Proof.
  intros (_ & _ & Hroot & Hlinks) Hs.
  enough (∀ fuel s i, isState cfg q s → (Z.to_nat s < fuel)%nat →
            ∃ n, depth fuel (statespace q) s i = Done (i + Z.of_nat n)
                 ∧ ancestor (statespace q) n s = 0
                 ∧ ∀ m, (m < n)%nat → ancestor (statespace q) m s ≠ 0) as H.
  { destruct (H (S (Z.to_nat s)) s 0 Hs ltac:(lia)) as (n & H1 & H2).
    exists n. by rewrite Z.add_0_l in H1. }
  clear s Hs. induction fuel as [|f IH]; intros s i Hs Hf; [lia|].
  cbn [depth]. destruct (Z.eqb_spec s (parentState (statespace q) s)) as [E|N];
    cbn [negb].
  - exists 0%nat. rewrite Z.add_0_r. split; [done|].
    assert (s = 0) as ->.
    { destruct (decide (s = 0)) as [|Hne]; [done|].
      destruct (Hlinks s Hs Hne) as [_ Hlt]. lia. }
    split; [done|]. intros m Hm. lia.
  - assert (s ≠ 0) as Hne by (intros ->; by rewrite Hroot in N).
    destruct (Hlinks s Hs Hne) as [Hp Hlt].
    destruct (IH (parentState (statespace q) s) (i + 1) Hp) as (n & H1 & H2 & H3).
    { destruct Hs as [Hs _], Hp as [Hp _]. lia. }
    exists (S n). rewrite H1. split; [f_equal; lia|].
    rewrite ancestor_S. split; [done|].
    intros [|m] Hm; [done|]. rewrite ancestor_S. apply H3. lia.
Qed.

(** [nontrivial(s)], when it returns, answers whether one of the states on
    the parent chain from [s], the state that is its own parent left out,
    has rows that [aperiodic] accepts. *)
Theorem nontrivial_some_aperiodic fuel cfg st s b :
  nontrivial fuel cfg st s = Some b →
  (b = true ↔
   ∃ n, (∀ m, (m <= n)%nat →
           parentState st (ancestor st m s) ≠ ancestor st m s)
        ∧ aperiodic cfg st (ancestor st n s) = Some true).
Proof.
  revert s. induction fuel as [|f IH]; intros s H; [done|].
  cbn [nontrivial] in H.
  destruct (Z.eqb_spec (parentState st s) s) as [E|N].
  - injection H as <-. split; [done|]. intros (n & Hn & _).
    by destruct (Hn 0%nat ltac:(lia)).
  - destruct (aperiodic cfg st s) as [[|]|] eqn:Ea; [| |done].
    + injection H as <-. split; [|done]. intros _. exists 0%nat.
      split; [|done]. intros m Hm. by assert (m = 0)%nat as -> by lia.
    + rewrite (IH _ H). split.
      * intros (n & Hn & Hap). exists (S n). rewrite ancestor_S.
        split; [|done]. intros [|m] Hm; [done|]. rewrite ancestor_S.
        apply Hn. lia.
      * intros ([|n] & Hn & Hap); [cbn in Hap; congruence|].
        exists n. rewrite ancestor_S in Hap. split; [|done].
        intros m Hm. specialize (Hn (S m) ltac:(lia)).
        by rewrite ancestor_S in Hn.
Qed.




(** The start of the Life search at period 2. *)
Lemma makeInitialStates_root_witness :
  ∃ q, makeInitialStates life2 = Some q
       ∧ firstUnprocessedState q = 0
       ∧ firstFreeState q = period life2 + 1
       ∧ parentState (statespace q) 0 = 0
       ∧ (∀ phase, 0 <= phase < period life2 → rowOfState (statespace q) 0 phase = 0)
       ∧ parentsBelow life2 q.
Proof. apply (makeInitialStates_root life2). cbn. lia. Defined.



Lemma twoStates_parentsBelow : parentsBelow life2 twoStates.
Proof.
  split; [done|]. split; [done|]. split; [done|].
  intros s [Hs Hm] Hne. change (0 <= s < 6) in Hs. change (s mod 3 = 0) in Hm.
  assert (s = 3) as ->.
  { apply Z.mod_divide in Hm as [b Hb]; lia. }
  done.
Qed.

(** The child in [twoStates] is one parent link away from the root. *)
Lemma depth_counts_links_witness :
  ∃ n, depth (S (Z.to_nat 3)) (statespace twoStates) 3 0 = Done (Z.of_nat n)
       ∧ ancestor (statespace twoStates) n 3 = 0
       ∧ ∀ m, (m < n)%nat → ancestor (statespace twoStates) m 3 ≠ 0.
Proof.
  apply (depth_counts_links life2 twoStates 3 twoStates_parentsBelow). done.
Defined.

(** The child in [twoStates] has the rows 1 and 2, of full period 2. *)
Lemma nontrivial_some_aperiodic_witness :
  true = true ↔
  ∃ n, (∀ m, (m <= n)%nat →
          parentState (statespace twoStates) (ancestor (statespace twoStates) m 3)
          ≠ ancestor (statespace twoStates) m 3)
       ∧ aperiodic life2 (statespace twoStates) (ancestor (statespace twoStates) n 3)
         = Some true.
Proof.
  apply (nontrivial_some_aperiodic 10 life2 (statespace twoStates) 3 true).
  by vm_compute.
Defined.



(* ================================================================== *)
(** ** What [compact] does to the parameters *)
(* ================================================================== *)

Lemma shrinkRotor_widths cfg :
  totalWidth (shrinkRotor cfg) = totalWidth cfg
  ∧ period (shrinkRotor cfg) = period cfg
  ∧ maxDeepen (shrinkRotor cfg) = maxDeepen cfg
  ∧ (0 < rotorWidth cfg →
     0 <= rotorWidth (shrinkRotor cfg) < rotorWidth cfg)
  ∧ leftStatorWidth cfg <= leftStatorWidth (shrinkRotor cfg)
  ∧ rightStatorWidth cfg < rightStatorWidth (shrinkRotor cfg).
Proof.
  unfold shrinkRotor, totalWidth.
  destruct (Z.ltb_spec 0 (leftStatorWidth cfg)); cbn [andb];
    [destruct (Z.ltb_spec 0 (rotorWidth cfg - 1))|]; cbn; lia.
Qed.

(** A call of [compact] that returns leaves the total width and the period
    as they were and hashing switched on.  The rotor never grows and a rotor
    that was not negative does not become negative; the stators never
    shrink.  The rotor shrinks exactly when [maxDeepen] is positive, the
    rotor is not empty and one more level than last time would exceed
    [maxDeepen]; [lastDepth] is then one above the depth of the frontier.
    In every case the new [lastDepth] is above the depth of the frontier, so
    that [deepen] was asked for at least one level, and for at most
    [maxDeepen] levels when [maxDeepen] is positive and the rotor was not
    empty. *)
Theorem compact_keeps_widths fuel tb ti d d' fd :
  depth fuel (statespace (queue (mach d)))
        (firstUnprocessedState (queue (mach d))) 0 = Done fd →
  compact fuel tb ti d = Done d' →
  totalWidth (params d') = totalWidth (params d)
  ∧ period (params d') = period (params d)
  ∧ hashing (params d') = 1
  ∧ rotorWidth (params d') <= rotorWidth (params d)
  ∧ (0 <= rotorWidth (params d) → 0 <= rotorWidth (params d'))
  ∧ leftStatorWidth (params d) <= leftStatorWidth (params d')
  ∧ rightStatorWidth (params d) <= rightStatorWidth (params d')
  ∧ (rotorWidth (params d') < rotorWidth (params d)
     ↔ 0 < maxDeepen (params d) ∧ 0 < rotorWidth (params d)
       ∧ maxDeepen (params d) < Z.max fd (lastDepth d) + 1 - fd)
  ∧ (rotorWidth (params d') < rotorWidth (params d) → lastDepth d' = fd + 1)
  ∧ 1 <= lastDepth d' - fd
  ∧ (0 < maxDeepen (params d) → 0 < rotorWidth (params d) →
     lastDepth d' - fd <= maxDeepen (params d)).
Proof.
  intros Hd H. unfold compact, compactWith in H. rewrite Hd in H.
  cbn [obind] in H.
  set (ld := (if fd >? lastDepth d then fd else lastDepth d) + 1) in H.
  assert (Hld : ld = Z.max fd (lastDepth d) + 1).
  { unfold ld. destruct (Z.gtb_spec fd (lastDepth d)); lia. }
  destruct (Z.ltb_spec 0 (maxDeepen (params d))) as [Hm|Hm]; cbn [andb] in H.
  - destruct (Z.ltb_spec 0 (rotorWidth (params d))) as [Hr|Hr]; cbn [andb] in H.
    + destruct (Z.ltb_spec (maxDeepen (params d)) (ld - fd)) as [Hx|Hx].
      * destruct (deepen _ _ _ _ _ _) as [m1| | |]; cbn [obind] in H; try done.
        destruct (compactStages _ _ _) as [m2| | |]; cbn [obind] in H; try done.
        injection H as <-. cbn [params lastDepth].
        destruct (shrinkRotor_widths (params d)) as (H1 & H2 & H3 & H4 & H5 & H6).
        unfold set_hashing, totalWidth in *. cbn. lia.
      * destruct (deepen _ _ _ _ _ _) as [m1| | |]; cbn [obind] in H; try done.
        destruct (compactStages _ _ _) as [m2| | |]; cbn [obind] in H; try done.
        injection H as <-. cbn [params lastDepth].
        unfold set_hashing, totalWidth. cbn. lia.
    + destruct (deepen _ _ _ _ _ _) as [m1| | |]; cbn [obind] in H; try done.
      destruct (compactStages _ _ _) as [m2| | |]; cbn [obind] in H; try done.
      injection H as <-. cbn [params lastDepth].
      unfold set_hashing, totalWidth. cbn. lia.
  - destruct (deepen _ _ _ _ _ _) as [m1| | |]; cbn [obind] in H; try done.
    destruct (compactStages _ _ _) as [m2| | |]; cbn [obind] in H; try done.
    injection H as <-. cbn [params lastDepth].
    unfold set_hashing, totalWidth. cbn. lia.
Qed.

(* ================================================================== *)
(** ** [listRows] appends rows of the right width *)
(* ================================================================== *)

Lemma rowsAppended_refl cd phase partialRow n : rowsAppended cd cd phase partialRow n.
Proof.
  unfold rowsAppended. split; [done|]. split; [done|]. split; [lia|].
  split; [done|]. split; [done|]. split; [|lia]. intros k Hk. lia.
Qed.

Lemma listRows_rec_appends n tb extensions :
  ∀ cd partialRow phase extension cd',
    0 <= partialRow → partialRow + 2 ^ Z.of_nat n <= 2 ^ 32 →
    listRows_rec n tb extensions cd partialRow phase extension = Some cd' →
    rowsAppended cd cd' phase partialRow (Z.of_nat n).
Proof.
  induction n as [|m IH]; intros cd partialRow phase extension cd' Hp Hw H.
  - cbn [listRows_rec] in H. destruct (extension =? 0).
    { injection H as <-. apply rowsAppended_refl. }
    match type of H with
    | (if ?a >=? ?b then _ else _) = _ => destruct (Z.geb_spec a b) as [|E]
    end; [done|]. injection H as <-.
    cbn [firstRow nRows set_nRows set_rows] in E. rewrite rd_wr_eq in E.
    unfold rowsAppended. cbn [firstRow nRows rows rowIndices set_nRows set_rows].
    rewrite rd_wr_eq.
    split; [done|]. split; [done|]. split; [lia|].
    split; [intros p Hne; by apply rd_wr_ne|].
    split; [intros k Hk; apply rd_wr_ne; lia|].
    split; [|lia].
    intros k Hk. exists 0. split; [done|].
    replace k with (rd (firstRow cd) phase + rd (nRows cd) phase) by lia.
    rewrite rd_wr_eq. lia.
  - cbn [listRows_rec] in H. destruct (extension =? 0).
    { injection H as <-. apply rowsAppended_refl. }
    destruct (listRows_rec m tb extensions cd partialRow phase _) as [cd1|] eqn:E1;
      cbn [mbind option_bind] in H; [|done].
    assert (Hpow : 2 ^ Z.of_nat (S m) = 2 * 2 ^ Z.of_nat m).
    { rewrite Nat2Z.inj_succ, Z.pow_succ_r by lia. done. }
    assert (0 < 2 ^ Z.of_nat m) by (apply Z.pow_pos_nonneg; lia).
    assert (Hu : u32 (partialRow + Z.shiftl 1 (Z.of_nat m))
                 = partialRow + 2 ^ Z.of_nat m).
    { rewrite Z.shiftl_1_l. apply u32_small. lia. }
    rewrite Hu in H.
    apply IH in E1; [|lia..]. apply IH in H; [|lia..].
    destruct E1 as (F1 & I1 & N1 & O1 & R1 & W1 & B1).
    destruct H as (F2 & I2 & N2 & O2 & R2 & W2 & B2).
    unfold rowsAppended. rewrite F1 in *.
    split; [done|]. split; [congruence|]. split; [lia|].
    split; [intros p Hne; rewrite O2, O1; done|].
    split; [intros k Hk; rewrite R2, R1; [done|lia..]|].
    split; [|lia].
    intros k Hk.
    destruct (decide (k < rd (firstRow cd) phase + rd (nRows cd1) phase)) as [Hlt|Hge].
    + rewrite R2 by done. destruct (W1 k ltac:(lia)) as (low & Hlow & ->).
      exists low. split; [lia|done].
    + destruct (W2 k ltac:(lia)) as (low & Hlow & ->).
      exists (2 ^ Z.of_nat m + low). split; lia.
Qed.

(** [listRows(partialRow, phase, bit, extension)], when it returns, has only
    appended rows to the segment of [phase]: the rows listed before are
    untouched, the counts of the other phases and every [firstRow] are as
    before, each new row is [partialRow] with bits added at the positions
    [0 .. bit] only, and the segment ends below [NROWS]. *)
Theorem listRows_appends tb extensions cd partialRow phase bit extension cd' :
  -1 <= bit → 0 <= partialRow → partialRow + 2 ^ (bit + 1) <= 2 ^ 32 →
  listRows tb extensions cd partialRow phase bit extension = Some cd' →
  rowsAppended cd cd' phase partialRow (bit + 1).
Proof.
  intros Hb Hp Hw H. unfold listRows in H.
  apply listRows_rec_appends in H; rewrite ?Z2Nat.id in * by lia; done.
Qed.


(** [compact] on the queue [twoStates] with [maxDeepen = 1] and
    [lastDepth = 2]: the frontier is at depth 1, two levels would be too
    many, so the rotor shrinks from 3 columns to 2, the right stator grows
    to 1 and [deepen] is asked for one level. *)
Lemma twoStatesLate_compacted :
  ∃ d', compact 1000 (initTables life2Deepen1) life2Term twoStatesLate = Done d'
        ∧ rotorWidth (params d') = 2
        ∧ leftStatorWidth (params d') = 0
        ∧ rightStatorWidth (params d') = 1
        ∧ lastDepth d' = 2.
Proof.
  assert (H : match compact 1000 (initTables life2Deepen1) life2Term
                            twoStatesLate with
              | Done d' => rotorWidth (params d') = 2
                           ∧ leftStatorWidth (params d') = 0
                           ∧ rightStatorWidth (params d') = 1
                           ∧ lastDepth d' = 2
              | _ => False
              end) by (vm_compute; repeat split).
  revert H.
  destruct (compact _ _ _ _) as [d'| | |]; intros H; [|destruct H..].
  exists d'. split; [reflexivity|exact H].
Qed.

Lemma compact_keeps_widths_witness :
  ∃ d',
    compact 1000 (initTables life2Deepen1) life2Term twoStatesLate = Done d'
    ∧ (rotorWidth (params d') = 2 ∧ leftStatorWidth (params d') = 0
       ∧ rightStatorWidth (params d') = 1 ∧ lastDepth d' = 2)
    ∧ totalWidth (params d') = totalWidth life2Deepen1
    ∧ period (params d') = period life2Deepen1
    ∧ hashing (params d') = 1
    ∧ rotorWidth (params d') <= rotorWidth life2Deepen1
    ∧ (0 <= rotorWidth life2Deepen1 → 0 <= rotorWidth (params d'))
    ∧ leftStatorWidth life2Deepen1 <= leftStatorWidth (params d')
    ∧ rightStatorWidth life2Deepen1 <= rightStatorWidth (params d')
    ∧ (rotorWidth (params d') < rotorWidth life2Deepen1
       ↔ 0 < maxDeepen life2Deepen1 ∧ 0 < rotorWidth life2Deepen1
         ∧ maxDeepen life2Deepen1 < Z.max 1 2 + 1 - 1)
    ∧ (rotorWidth (params d') < rotorWidth life2Deepen1 → lastDepth d' = 1 + 1)
    ∧ 1 <= lastDepth d' - 1
    ∧ (0 < maxDeepen life2Deepen1 → 0 < rotorWidth life2Deepen1 →
       lastDepth d' - 1 <= maxDeepen life2Deepen1).
Proof.
  destruct twoStatesLate_compacted as (d' & E & F).
  exists d'. split; [exact E|]. split; [exact F|].
  apply (compact_keeps_widths 1000 (initTables life2Deepen1) life2Term
                              twoStatesLate d' 1).
  - vm_compute. reflexivity.
  - exact E.
Defined.

(** Three columns in which every context is allowed: the eight rows. *)
Lemma listRows_appends_witness :
  ∃ cd',
    listRows shiftTables fullExtensions (cand life2Start) 0 0 2 3 = Some cd'
    ∧ rowsAppended (cand life2Start) cd' 0 0 (2 + 1).
Proof.
  set (o := listRows shiftTables fullExtensions (cand life2Start) 0 0 2 3).
  assert (E : o = Some (match o with Some c => c | None => cand life2Start end))
    by (vm_compute; reflexivity).
  exists (match o with Some c => c | None => cand life2Start end).
  split; [exact E|].
  apply (listRows_appends shiftTables fullExtensions (cand life2Start) 0 0 2 3).
  - lia.
  - lia.
  - lia.
  - exact E.
Defined.

(** The bitmap of the contexts 0 and 2. *)
Lemma downShift_projection_witness : downShift 5 = context_projection 5.
Proof. apply (downShift_projection 5). lia. Defined.

(** Two rows on 32 columns with the leftmost column empty. *)
Lemma statorCompare_sign_31_witness :
  (statorCompare width32 1 2 < 0 ↔ stator_lt width32 1 2)
  ∧ (statorCompare width32 1 2 = 0 ↔ 1 = 2).
Proof. apply (statorCompare_sign_31 width32 1 2); lia. Defined.

(* ================================================================== *)
(** ** A hashed state is found again *)
(* ================================================================== *)

Lemma duplicates_sym cfg st s t :
  duplicates cfg st s t → duplicates cfg st t s.
Proof. intros H phase Hp. destruct (H phase Hp) as [-> ->]. done. Qed.

Lemma duplicates_trans cfg st s t u :
  duplicates cfg st s t → duplicates cfg st t u → duplicates cfg st s u.
Proof.
  intros H1 H2 phase Hp. destruct (H1 phase Hp) as [<- <-].
  apply (H2 phase Hp).
Qed.

(** Duplicates have the same hash key: the key reads only the rows of the
    state and of its parent. *)
Lemma hashKey0_duplicates cfg h st s t :
  duplicates cfg st s t → hashKey0 cfg h st t = hashKey0 cfg h st s.
Proof.
  intros H. unfold hashKey0. apply foldl_ext. intros key phase Hp%elem_of_upto.
  destruct (H phase Hp) as [H1 H2].
  unfold HASHBYTE, HASHIDX. by rewrite H1, H2.
Qed.

(** The probe sequence stops at the first slot that is empty or holds a
    duplicate. *)
Lemma probed_le cfg st tab s key i j :
  probed cfg st tab s key i →
  probeSlot tab key j = 0 ∨ duplicates cfg st s (probeSlot tab key j) →
  (i <= j)%nat.
Proof.
  intros Hi Hj. destruct (le_lt_dec i j) as [|Hlt]; [done|].
  destruct (Hi j Hlt) as [H1 H2]. destruct Hj; done.
Qed.

(** A state that [hash] has stored is found again: if [hash(s)] changes the
    table (so [s], which is not the offset 0 that marks an empty slot, was
    stored in an empty slot), then [hash(t)] of any state [t] with the same
    rows and the same parent rows returns nonzero and leaves the table as
    it is. *)
Theorem hash_finds_stored_state cfg h st s t :
  s ≠ 0 →
  duplicates cfg st s t →
  hashTable (hash cfg h st s).2 ≠ hashTable h →
  hash cfg (hash cfg h st s).2 st t = (1, (hash cfg h st s).2).
Proof.
  intros Hs Hdup Hch. unfold hash in *.
  set (key := hashKey0 cfg h st s) in *.
  destruct (hash_probe_cases cfg st 3 (hashTable h) s key)
    as [(j & Hj & Hp & Hs0 & Hr) | [(j & Hj & Hp & Hs0 & Hd & Hr) | [Hp Hr]]];
    rewrite Hr in Hch |- *; cbn [fst snd set_hashTable hashTable] in *;
    [|done..].
  clear Hch.
  set (tab' := wr (hashTable h) (probeIndex key j) s).
  replace (hashKey0 cfg (set_hashTable h tab') st t) with key.
  2:{ symmetry. apply (hashKey0_duplicates cfg h st s t Hdup). }
  (* the probe sequence of [t] in the new table *)
  assert (Hslot : ∀ m, (m < j)%nat → probeSlot tab' key m = probeSlot (hashTable h) key m).
  { intros m Hm. unfold probeSlot, tab'. rewrite rd_wr_ne; [done|].
    intros E. destruct (Hp m Hm) as [Hne _]. apply Hne.
    unfold probeSlot in *. by rewrite <- E. }
  assert (Hj' : probeSlot tab' key j = s).
  { unfold probeSlot, tab'. apply rd_wr_eq. }
  assert (Hp' : probed cfg st tab' t key j).
  { intros m Hm. rewrite Hslot by done. destruct (Hp m Hm) as [Hne Hnd].
    split; [done|]. intros Hd. apply Hnd.
    by apply (duplicates_trans cfg st s t). }
  assert (Hdt : duplicates cfg st t (probeSlot tab' key j)).
  { rewrite Hj'. by apply duplicates_sym. }
  destruct (hash_probe_cases cfg st 3 tab' t key)
    as [(i & Hi & Hpi & Hsi & Hri) | [(i & Hi & Hpi & Hsi & Hdi & Hri) | [Hpi Hri]]].
  - exfalso.
    assert (i <= j)%nat by (apply (probed_le cfg st tab' t key i j); auto).
    assert (j <= i)%nat by (apply (probed_le cfg st tab' t key j i); auto).
    assert (i = j) as -> by lia. congruence.
  - rewrite Hri. done.
  - exfalso.
    assert (3 <= j)%nat by (apply (probed_le cfg st tab' t key 3%nat j); auto).
    lia.
Qed.

(** The second of two equal children of the root is rejected once the first
    is in the table. *)
Lemma hash_finds_stored_state_witness :
  hash life2 (hash life2 (emptyHash ∅ ∅) twins 3).2 twins 6
  = (1, (hash life2 (emptyHash ∅ ∅) twins 3).2).
Proof.
  apply (hash_finds_stored_state life2 (emptyHash ∅ ∅) twins 3 6).
  - done.
  - intros phase Hp. change (0 <= phase < 2) in Hp.
    assert (phase = 0 ∨ phase = 1) as [-> | ->] by lia; done.
  - intros E. apply (f_equal (fun a => rd a 0)) in E. by vm_compute in E.
Defined.

(* ================================================================== *)
(** ** [terminateCols] picks a cheapest closure *)
(* ================================================================== *)

(** What a loop has established for each element it went through. *)
Lemma foldl_covers {A B} (Q : A → B → Prop) (f : A → B → A) (a : A) (l : list B) :
  (∀ a x, x ∈ l → Q (f a x) x) →
  (∀ a x y, x ∈ l → y ∈ l → Q a x → Q (f a y) x) →
  ∀ x, x ∈ l → Q (foldl f a l) x.
Proof.
  revert a. induction l as [|y l IH]; intros a Hest Hstab x Hx;
    [by apply elem_of_nil in Hx|].
  cbn [foldl]. apply elem_of_cons in Hx as [->|Hx].
  - apply foldl_inv.
    + apply Hest. by left.
    + intros a' z Hz Ha'. apply Hstab; [by left|by right|done].
  - apply IH; [| |done].
    + intros a' z Hz. apply Hest. by right.
    + intros a' z w Hz Hw. apply Hstab; by right.
Qed.

(** [terminateCols] returns nonzero exactly when some pair of boundary
    columns closes the pattern at a cost below [0x7fff]; the pair it then
    records is in range, closes the pattern, and no pair that closes it is
    cheaper. *)
Theorem terminateCols_picks_cheapest sr backCol fwdCol :
  let r := terminateCols sr backCol fwdCol in
  let bk := backBestTerm r.2 in
  let fw := fwdBestTerm r.2 in
  (r.1 ≠ 0 ↔
   ∃ i j, 0 <= i < 32 ∧ 0 <= j < 32 ∧ closes sr backCol fwdCol i j
          ∧ closureCost sr backCol fwdCol i j < 32767)
  ∧ (r.1 ≠ 0 →
     0 <= bk < 32 ∧ 0 <= fw < 32 ∧ closes sr backCol fwdCol bk fw
     ∧ ∀ i j, 0 <= i < 32 → 0 <= j < 32 → closes sr backCol fwdCol i j →
         closureCost sr backCol fwdCol bk fw <= closureCost sr backCol fwdCol i j).
Proof.
  unfold terminateCols.
  set (step := fun (i : Z) '((bestCount, back, fwd) : Z * Z * Z) (j : Z) =>
    if (BT sr backCol i j <? 0) || (BT sr fwdCol j i <? 0)
    then (bestCount, back, fwd)
    else
      let tot := BT sr backCol i j + BT sr fwdCol j i - bitCount i - bitCount j in
      if tot <? bestCount then (tot, i, j) else (bestCount, back, fwd)).
  set (inner := fun (acc : Z * Z * Z) (i : Z) => foldl (step i) acc (upto 32)).
  change (foldl _ (32767, backBestTerm sr, fwdBestTerm sr) (upto 32))
    with (foldl inner (32767, backBestTerm sr, fwdBestTerm sr) (upto 32)).
  set (res := foldl inner _ _).
  (* one step *)
  assert (Hstep : ∀ i acc j,
            (step i acc j).1.1 <= acc.1.1
            ∧ (closes sr backCol fwdCol i j →
               (step i acc j).1.1 <= closureCost sr backCol fwdCol i j)).
  { intros i [[bc bk] fw] j. unfold step, closes, closureCost.
    destruct (Z.ltb_spec (BT sr backCol i j) 0); cbn [orb fst]; [lia|].
    destruct (Z.ltb_spec (BT sr fwdCol j i) 0); cbn [fst]; [lia|].
    destruct (Z.ltb_spec (BT sr backCol i j + BT sr fwdCol j i
                          - bitCount i - bitCount j) bc); cbn [fst]; lia. }
  assert (Hinner : ∀ acc i, (inner acc i).1.1 <= acc.1.1).
  { intros acc i. unfold inner.
    apply (foldl_inv (fun a => a.1.1 <= acc.1.1)); [lia|].
    intros a j _ Ha. destruct (Hstep i a j). lia. }
  (* the recorded pair *)
  assert (Hrec : res.1.1 < 32767 →
            0 <= res.1.2 < 32 ∧ 0 <= res.2 < 32
            ∧ closes sr backCol fwdCol res.1.2 res.2
            ∧ res.1.1 = closureCost sr backCol fwdCol res.1.2 res.2).
  { unfold res. apply (foldl_inv (fun a => a.1.1 < 32767 →
            0 <= a.1.2 < 32 ∧ 0 <= a.2 < 32
            ∧ closes sr backCol fwdCol a.1.2 a.2
            ∧ a.1.1 = closureCost sr backCol fwdCol a.1.2 a.2));
      [cbn; lia|].
    intros acc i Hi%elem_of_upto Hacc. unfold inner. apply foldl_inv; [done|].
    intros [[bc bk] fw] j Hj%elem_of_upto H. unfold step, closes, closureCost in *.
    cbn [fst snd] in *.
    destruct (Z.ltb_spec (BT sr backCol i j) 0); cbn [orb fst snd]; [done|].
    destruct (Z.ltb_spec (BT sr fwdCol j i) 0); cbn [fst snd]; [done|].
    destruct (Z.ltb_spec (BT sr backCol i j + BT sr fwdCol j i
                          - bitCount i - bitCount j) bc); cbn [fst snd];
      [|done].
    intros _. lia. }
  (* every pair was looked at *)
  assert (Hall : ∀ i, i ∈ upto 32 → ∀ j, j ∈ upto 32 →
            closes sr backCol fwdCol i j →
            res.1.1 <= closureCost sr backCol fwdCol i j).
  { unfold res.
    apply (foldl_covers (fun a i => ∀ j, j ∈ upto 32 →
             closes sr backCol fwdCol i j →
             a.1.1 <= closureCost sr backCol fwdCol i j)).
    - intros acc i Hi. unfold inner.
      apply (foldl_covers (fun a j => closes sr backCol fwdCol i j →
               a.1.1 <= closureCost sr backCol fwdCol i j)).
      + intros a j _. apply Hstep.
      + intros a j j' _ _ Ha Hc. destruct (Hstep i a j'). specialize (Ha Hc). lia.
    - intros a i i' _ _ Ha j Hj Hc. specialize (Ha j Hj Hc).
      specialize (Hinner a i'). lia. }
  assert (Hle : res.1.1 <= 32767).
  { unfold res. apply (foldl_inv (fun a => a.1.1 <= 32767)); [cbn; lia|].
    intros a i _ Ha. specialize (Hinner a i). lia. }
  destruct res as [[bc bk] fw]. cbn [fst snd] in *.
  destruct (Z.ltb_spec bc 32767) as [Hlt|Hge]; cbn [fst snd backBestTerm fwdBestTerm].
  - destruct (Hrec Hlt) as (H1 & H2 & H3 & H4). split.
    + split; [|done]. intros _. exists bk, fw. split; [done|]. split; [done|].
      split; [done|]. lia.
    + intros _. split; [done|]. split; [done|]. split; [done|].
      intros i j Hi Hj Hc. rewrite <- H4. apply Hall; [by apply elem_of_upto..|done].
  - split; [|done]. split; [done|]. intros (i & j & Hi & Hj & Hc & Hcost).
    exfalso. specialize (Hall i ltac:(by apply elem_of_upto) j
                              ltac:(by apply elem_of_upto) Hc). lia.
Qed.

(* ================================================================== *)
(** ** The lines written by [putRow] *)
(* ================================================================== *)

Lemma putCells_length (theRow : Z) (l : list Z) :
  length (concat (map (fun b => putCell theRow b) l)) = length l.
Proof. induction l as [|b l IH]; [done|]. cbn. by rewrite IH. Qed.

Lemma putCells_chars (theRow : Z) (l : list Z) :
  Forall (fun ch => ch = "o"%char ∨ ch = "."%char)
         (concat (map (fun b => putCell theRow b) l)).
Proof.
  induction l as [|b l IH]; [by constructor|]. cbn.
  constructor; [|done]. destruct (Z.testbit theRow b); auto.
Qed.

(** [putRow] writes one line: cells [o] and [.] followed by the newline,
    and the number of cells does not depend on the row, so the rows of a
    printed pattern line up. *)
Theorem putRow_one_line cfg ti theRow :
  ∃ cells,
    putRow cfg ti theRow = cells ++ [newline]
    ∧ Forall (fun ch => ch = "o"%char ∨ ch = "."%char) cells
    ∧ ∀ otherRow, length (putRow cfg ti otherRow) = S (length cells).
Proof.
  unfold putRow.
  set (pad := replicate (Z.to_nat (addlStatorCols ti)) "."%char).
  set (mirror := fun r : Z =>
         match symmetry cfg with
         | none => if addlStatorCols ti =? 0 then ["."%char] else []
         | odd => putCellsDown r (totalWidth cfg - 1) 1
         | even => putCellsDown r (totalWidth cfg - 1) 0
         end).
  set (body := fun r : Z =>
         concat (map (fun b => putCell r b)
                     (upto (totalWidth cfg + addlStatorCols ti)))).
  change (∃ cells,
    pad ++ mirror theRow ++ body theRow ++ [newline] = cells ++ [newline]
    ∧ Forall (fun ch => ch = "o"%char ∨ ch = "."%char) cells
    ∧ ∀ otherRow,
        length (pad ++ mirror otherRow ++ body otherRow ++ [newline])
        = S (length cells)).
  assert (Hm : ∀ r, Forall (fun ch => ch = "o"%char ∨ ch = "."%char) (mirror r)
                    ∧ length (mirror r) = length (mirror theRow)).
  { intros r. unfold mirror, putCellsDown. destruct (symmetry cfg).
    - split; [|reflexivity]. destruct (_ =? _); [|constructor].
      constructor; [by right|constructor].
    - split; [apply putCells_chars|]. by rewrite !putCells_length.
    - split; [apply putCells_chars|]. by rewrite !putCells_length. }
  exists (pad ++ mirror theRow ++ body theRow).
  split; [by rewrite <- !app_assoc|]. split.
  - apply Forall_app. split; [apply Forall_replicate; by right|].
    apply Forall_app. split; [apply Hm | apply putCells_chars].
  - intros otherRow. rewrite !length_app. unfold body.
    rewrite !putCells_length. destruct (Hm otherRow) as [_ ->].
    cbn [length]. lia.
Qed.

(** [setupExtensions] writes the entries [0 .. totalWidth - 1] of
    [extensions] and no other; what it writes there does not depend on what
    the array held before. *)
Theorem setupExtensions_writes_columns cfg tb e a b c m k :
  (¬ 0 <= k < totalWidth cfg →
   rd (setupExtensions cfg tb e a b c m) k = rd e k)
  ∧ (0 <= k < totalWidth cfg →
     ∀ e', rd (setupExtensions cfg tb e a b c m) k
           = rd (setupExtensions cfg tb e' a b c m) k).
Proof.
  split; [|intros Hk e'; by apply setupExtensions_indep].
  intros Hk. unfold setupExtensions.
  set (g := λ '(extensions, x, a, b, c) (i : Z),
              (wr extensions i (maskedExtension tb x a b c m),
               maskedExtension tb x a b c m, a ≫ 1, b ≫ 1, c ≫ 1)).
  assert (H : ∀ l e x a b c,
            ∃ E X A B C,
              foldl g (e, x, a, b, c) l = (E, X, A, B, C)
              ∧ (k ∉ l → rd E k = rd e k)).
  { induction l as [|i l IH]; intros e1 x1 a1 b1 c1.
    - by exists e1, x1, a1, b1, c1.
    - cbn [foldl]. unfold g at 2.
      destruct (IH (wr e1 i (maskedExtension tb x1 a1 b1 c1 m))
                   (maskedExtension tb x1 a1 b1 c1 m) (a1 ≫ 1) (b1 ≫ 1) (c1 ≫ 1))
        as (E & X & A & B & C & H1 & H2).
      exists E, X, A, B, C. split; [done|].
      intros Hn. apply not_elem_of_cons in Hn as [Hne Hn].
      rewrite H2 by done. by apply rd_wr_ne. }
  destruct (H (upto (totalWidth cfg)) e (extensionSeed cfg tb a b c m) a b c)
    as (E & X & A & B & C & -> & H2).
  apply H2. by rewrite elem_of_upto.
Qed.

(* ================================================================== *)
(** ** [deepen] only marks states *)
(* ================================================================== *)









Lemma sameQueue_refl q : sameQueue q q.
Proof. done. Qed.





